(** * The album store: read cache, vote gate, ranking

    A shallow embedding of the Pinia store [useAlbumStore] (stores/album.ts),
    of the helpers of types/album.ts and of the ranking of the album list
    view, with the properties the specification states about them.

    Conventions of the embedding.
    - JavaScript numbers that hold ids, pages and counts are integers; they
      are modelled by [Z].  [Number.prototype.toString] of an integer is its
      decimal rendering (as it is below 10^21), stdpp's [pretty] on [Z].
    - [Map<string, V>] is [gmap string V], [Set<number>] is [gset Z], arrays
      are lists.  After a fetch the visible collection and the array of the
      cached page are one object; the only write into that array, in
      [voteAlbum], is followed by [cache.clear()] before anything else runs,
      so no cached page is read after it and arrays are taken by value.
    - An [async] function is cut at its [await]: a synchronous prefix that
      either returns or issues one remote request, and a continuation that
      runs when the request settles.  The code neither reads nor writes the
      store between [await fetch(...)] and [await response.json()], so the
      two suspensions are one settlement in the model.
    - [voteAlbum] and [deleteAlbum] build their request inside the [try]:
      the token of the auth store is read, and [getCookie('XSRF-TOKEN')]
      decodes the XSRF cookie, which throws when the cookie is malformed.
      What the reading of the cookie does is an input of the call; when it
      throws, the [catch] block runs and no request is issued.
    - [String.prototype.localeCompare] belongs to the runtime; ECMAScript
      requires it to be a consistent comparator, a total preorder on
      strings, and the ranking is stated for any such collation. *)

From Stdlib Require Import Ascii.
From stdpp Require Import gmap strings list sorting pretty.

Local Open Scope Z_scope.

(** ** types/album.ts *)

Inductive VoteType := up | down.

Global Instance VoteType_eq_dec : EqDecision VoteType.
Proof. solve_decision. Defined.

Record Vote := {
  vote_id : Z;
  album_id : Z;
  user_id : Z;
  vote : VoteType;
  vote_created_at : string;
  vote_updated_at : string
}.

Record Album := {
  id : Z;
  song_name : string;
  artist_name : string;
  album_cover : option string;
  created_at : string;
  updated_at : string;
  votes : list Vote
}.

Record PaginationLink := {
  url : option string;
  label : string;
  active : bool
}.

Record PaginatedAlbumResponse := {
  current_page : Z;
  data : list Album;
  first_page_url : string;
  from : Z;
  last_page : Z;
  last_page_url : string;
  links : list PaginationLink;
  next_page_url : option string;
  path : string;
  per_page : Z;
  prev_page_url : option string;
  to : Z;
  total : Z
}.

Record VoteResponse := {
  success : bool;
  response_votes : list Vote
}.

Record AlbumFilters := {
  page : Z;
  search : string
}.

(** The accumulator object [{ up, down }] of [calculateVoteCounts]. *)
Record VoteCounts := {
  count_up : Z;
  count_down : Z
}.

(** The callback handed to [reduce]. *)
Definition count_vote (acc : VoteCounts) (v : Vote) : VoteCounts :=
  if decide (vote v = up) then
    {| count_up := count_up acc + 1; count_down := count_down acc |}
  else if decide (vote v = down) then
    {| count_up := count_up acc; count_down := count_down acc + 1 |}
  else acc.

(** [votes.reduce(callback, { up: 0, down: 0 })] *)
Definition calculateVoteCounts (vs : list Vote) : VoteCounts :=
  fold_left count_vote vs {| count_up := 0; count_down := 0 |}.

(** ** [Array.prototype.sort]

    The sort of ECMAScript is stable; for a consistent comparator its result
    is the one stable ordering of the array.  It is modelled by the stable
    insertion of each element in front of the sorted rest: an element goes
    before the first element it does not compare greater than. *)

Section js_sort.
Context {A : Type} (comparefn : A → A → Z).

Fixpoint sort_insert (x : A) (l : list A) : list A :=
  match l with
  | [] => [x]
  | y :: l' =>
      if decide (comparefn x y ≤ 0) then x :: y :: l'
      else y :: sort_insert x l'
  end.

Definition js_sort (l : list A) : list A := foldr sort_insert [] l.
End js_sort.

(** ** The ranking, [sortedAlbums] *)

Section ranking_defs.
(** [String.prototype.localeCompare] is the collation of the runtime. *)
Variable localeCompare : string → string → Z.

(** The comparator of the store's [sortedAlbums]. *)
Definition compareAlbums (a b : Album) : Z :=
  let aVotes := calculateVoteCounts (votes a) in
  let bVotes := calculateVoteCounts (votes b) in
  let aTotal := count_up aVotes - count_down aVotes in
  let bTotal := count_up bVotes - count_down bVotes in
  if decide (bTotal ≠ aTotal) then bTotal - aTotal
  else localeCompare (song_name a) (song_name b).

(** [[...albums.value].sort(...)]: the spread copies the array, the copy is
    sorted, the array of the store is only read. *)
Definition sortedAlbums_of (albums : list Album) : list Album :=
  js_sort compareAlbums albums.
End ranking_defs.

(** The album list view sorts the getter of the store once more, with the
    same comparator written through [getTotalVotes]. *)
Module View.
Definition getTotalVotes (album : Album) : Z :=
  let counts := calculateVoteCounts (votes album) in
  count_up counts - count_down counts.

Section view_defs.
Variable localeCompare : string → string → Z.

Definition compareAlbums (a b : Album) : Z :=
  let aVotes := getTotalVotes a in
  let bVotes := getTotalVotes b in
  if decide (bVotes ≠ aVotes) then bVotes - aVotes
  else localeCompare (song_name a) (song_name b).

(** [[...albumStore.albums].sort(...)]; [albumStore.albums] is the
    sorted getter of the store. *)
Definition sortedAlbums (albumStore_albums : list Album) : list Album :=
  js_sort compareAlbums albumStore_albums.
End view_defs.
End View.

(** ** The state of the store *)

Record Store := {
  albums : list Album;
  loading : bool;
  voteLoading : gset Z;
  error : option string;
  totalPages : Z;
  currentPage : Z;
  searchQuery : string;
  cache : gmap string PaginatedAlbumResponse
}.

(** [defineStore('album', ...)]: the initial values of the refs. *)
Definition init_store : Store := {|
  albums := [];
  loading := false;
  voteLoading := ∅;
  error := None;
  totalPages := 0;
  currentPage := 1;
  searchQuery := "";
  cache := ∅
|}.

Definition set_albums (v : list Album) (st : Store) : Store :=
  {| albums := v; loading := loading st; voteLoading := voteLoading st;
     error := error st; totalPages := totalPages st;
     currentPage := currentPage st; searchQuery := searchQuery st;
     cache := cache st |}.

Definition set_loading (v : bool) (st : Store) : Store :=
  {| albums := albums st; loading := v; voteLoading := voteLoading st;
     error := error st; totalPages := totalPages st;
     currentPage := currentPage st; searchQuery := searchQuery st;
     cache := cache st |}.

Definition set_voteLoading (v : gset Z) (st : Store) : Store :=
  {| albums := albums st; loading := loading st; voteLoading := v;
     error := error st; totalPages := totalPages st;
     currentPage := currentPage st; searchQuery := searchQuery st;
     cache := cache st |}.

Definition set_error (v : option string) (st : Store) : Store :=
  {| albums := albums st; loading := loading st; voteLoading := voteLoading st;
     error := v; totalPages := totalPages st;
     currentPage := currentPage st; searchQuery := searchQuery st;
     cache := cache st |}.

Definition set_totalPages (v : Z) (st : Store) : Store :=
  {| albums := albums st; loading := loading st; voteLoading := voteLoading st;
     error := error st; totalPages := v;
     currentPage := currentPage st; searchQuery := searchQuery st;
     cache := cache st |}.

Definition set_currentPage (v : Z) (st : Store) : Store :=
  {| albums := albums st; loading := loading st; voteLoading := voteLoading st;
     error := error st; totalPages := totalPages st;
     currentPage := v; searchQuery := searchQuery st;
     cache := cache st |}.

Definition set_searchQuery (v : string) (st : Store) : Store :=
  {| albums := albums st; loading := loading st; voteLoading := voteLoading st;
     error := error st; totalPages := totalPages st;
     currentPage := currentPage st; searchQuery := v;
     cache := cache st |}.

Definition set_cache (v : gmap string PaginatedAlbumResponse) (st : Store) : Store :=
  {| albums := albums st; loading := loading st; voteLoading := voteLoading st;
     error := error st; totalPages := totalPages st;
     currentPage := currentPage st; searchQuery := searchQuery st;
     cache := v |}.

(** The getter [albums: sortedAlbums] of the store. *)
Definition sortedAlbums (localeCompare : string → string → Z) (st : Store) : list Album :=
  sortedAlbums_of localeCompare (albums st).

(** The phase of the session, read off the flags of the store: loading while
    [loading] is set, errored while an error message is recorded, ready
    otherwise. *)
Inductive Phase := phase_loading | phase_errored | phase_ready.

Definition phase (st : Store) : Phase :=
  if loading st then phase_loading
  else if error st is Some _ then phase_errored
  else phase_ready.

(** ** The runtime: thrown values, responses, promises *)

Inductive Thrown :=
  | ErrorObject (message : string)  (* a value with [instanceof Error] *)
  | StringValue (s : string)        (* [throw error.value] *)
  | OtherValue.

(** A [Response] as far as the store looks at it: [response.ok], and what
    [await response.json()] does, reject or resolve with the parsed body. *)
Record Response (A : Type) := {
  ok : bool;
  json : Thrown + A
}.
Arguments ok {A} _.
Arguments json {A} _.

(** How [await fetch(...)] ends: the promise rejects (no response, a transport
    failure) or resolves with a response. *)
Inductive Settlement (A : Type) :=
  | Rejects (err : Thrown)
  | Resolves (response : Response A).
Arguments Rejects {A} _.
Arguments Resolves {A} _.

(** The promise an [async] function returns, once settled. *)
Inductive Completion :=
  | Fulfilled
  | Rejected (reason : Thrown).

(** The remote requests of the store.  The bearer token and the XSRF header
    come from the auth store and the cookie jar, not from this store. *)
Inductive Request :=
  | ListAlbums (page : Z) (search : string)
  | CastVote (albumId : Z) (voteType : VoteType)
  | DeleteAlbum (albumId : Z).

(** What the synchronous prefix of a call did: it returned, so that the
    promise of the call is fulfilled; or it issued a request and is suspended
    on it; or it threw before any request, so that the promise of the call is
    rejected. *)
Inductive Suspension :=
  | Returned
  | Awaiting (req : Request)
  | Threw (reason : Thrown).

(** A call that ended within its synchronous prefix. *)
Definition ended (r : Store * Completion) : Store * Suspension :=
  (r.1, match r.2 with
        | Fulfilled => Returned
        | Rejected reason => Threw reason
        end).

(** Statements over the store that may throw. *)
Definition Exec (A : Type) : Type := Store → Store * (Thrown + A).

Global Instance Exec_ret : MRet Exec := λ A a st, (st, inr a).
Global Instance Exec_bind : MBind Exec := λ A B f m st,
  match m st with
  | (st', inr a) => f a st'
  | (st', inl e) => (st', inl e)
  end.

Definition throw {A} (e : Thrown) : Exec A := λ st, (st, inl e).
Definition modify (f : Store → Store) : Exec unit := λ st, (f st, inr tt).
Definition gets {A} (f : Store → A) : Exec A := λ st, (st, inr (f st)).

(** [await p] for a promise that settles as [r]. *)
Definition await {A} (r : Thrown + A) : Exec A := λ st, (st, r).

Definition await_fetch {A} (s : Settlement A) : Exec (Response A) :=
  match s with
  | Rejects err => throw err
  | Resolves response => mret response
  end.

(** [try { body } catch (err) { handler } finally { finalizer }] *)
Definition try_catch_finally {A} (body : Exec A) (handler : Thrown → Exec A)
    (finalizer : Exec unit) : Exec A := λ st,
  let '(st1, r1) := body st in
  let '(st2, r2) :=
    match r1 with
    | inl err => handler err st1
    | inr a => (st1, inr a)
    end in
  let '(st3, r3) := finalizer st2 in
  (st3, match r3 with inl err => inl err | inr _ => r2 end).

(** [try { body } catch (err) { handler }] *)
Definition try_catch {A} (body : Exec A) (handler : Thrown → Exec A) : Exec A :=
  try_catch_finally body handler (mret tt).

(** The promise of an [async] function whose body ran as [m]. *)
Definition settle_promise (m : Exec unit) (st : Store) : Store * Completion :=
  match m st with
  | (st', inr _) => (st', Fulfilled)
  | (st', inl err) => (st', Rejected err)
  end.

(** [err instanceof Error ? err.message : fallback] *)
Definition message_of (err : Thrown) (fallback : string) : string :=
  match err with
  | ErrorObject message => message
  | _ => fallback
  end.

(** ** The operations of the store *)

(** [`${filters.page}-${filters.search}`] *)
Definition getCacheKey (filters : AlbumFilters) : string :=
  pretty (page filters) +:+ "-" +:+ search filters.

(** The read cache as the store uses it: [cache.get(getCacheKey(f))] and
    [cache.set(getCacheKey(f), p)]. *)
Definition cache_get (f : AlbumFilters) (c : gmap string PaginatedAlbumResponse)
    : option PaginatedAlbumResponse :=
  c !! getCacheKey f.

Definition cache_put (f : AlbumFilters) (p : PaginatedAlbumResponse)
    (c : gmap string PaginatedAlbumResponse) : gmap string PaginatedAlbumResponse :=
  <[getCacheKey f := p]> c.

(** [fetchAlbums], up to [await fetch(...)]. *)
Definition fetchAlbums_call (filters : AlbumFilters) (st : Store) : Store * Suspension :=
  match cache_get filters (cache st) with
  | Some cachedData =>
      (set_totalPages (last_page cachedData) (set_albums (data cachedData) st),
       Returned)
  | None =>
      (set_error None (set_loading true st),
       Awaiting (ListAlbums (page filters) (search filters)))
  end.

(** [fetchAlbums], from the settlement of the request on.  The continuation
    holds the filters it was called with: it stores the page under their key. *)
Definition fetchAlbums_settle (filters : AlbumFilters)
    (s : Settlement PaginatedAlbumResponse) : Store → Store * Completion :=
  settle_promise
    (try_catch_finally
       (response ← await_fetch s;
        if negb (ok response) then throw (ErrorObject "Failed to fetch albums")
        else
          body ← await (json response);
          modify (set_albums (data body));;
          modify (set_totalPages (last_page body));;
          modify (λ st, set_cache (cache_put filters body (cache st)) st))
       (λ err, modify (set_error (Some (message_of err "An error occurred"))))
       (modify (set_loading false))).

(** [albums.value.findIndex(pred)]: the first index, or -1. *)
Definition findIndex {A} (P : A → Prop) `{!∀ x, Decision (P x)} (l : list A) : Z :=
  match list_find P l with
  | Some (i, _) => Z.of_nat i
  | None => -1
  end.

(** [{ ...album, votes: v }] *)
Definition with_votes (album : Album) (v : list Vote) : Album :=
  {| id := id album; song_name := song_name album;
     artist_name := artist_name album; album_cover := album_cover album;
     created_at := created_at album; updated_at := updated_at album;
     votes := v |}.

(** The update of the visible collection by a vote response. *)
Definition apply_votes (albumId : Z) (new_votes : list Vote) (st : Store) : Store :=
  let albumIndex := findIndex (λ a, id a = albumId) (albums st) in
  if decide (albumIndex ≠ -1) then
    match albums st !! Z.to_nat albumIndex with
    | Some album =>
        set_albums (<[Z.to_nat albumIndex := with_votes album new_votes]> (albums st)) st
    | None => st
    end
  else st.

(** [voteAlbum], from the settlement of the request on. *)
Definition voteAlbum_settle (albumId : Z) (s : Settlement VoteResponse)
    : Store → Store * Completion :=
  settle_promise
    (try_catch_finally
       (response ← await_fetch s;
        if negb (ok response) then throw (ErrorObject "Failed to vote")
        else
          body ← await (json response);
          modify (apply_votes albumId (response_votes body));;
          modify (set_cache ∅))
       (λ err,
          modify (set_error (Some (message_of err "Failed to vote")));;
          value ← gets error;
          throw (match value with Some m => StringValue m | None => OtherValue end))
       (modify (λ st, set_voteLoading (voteLoading st ∖ {[albumId]}) st))).

(** [voteAlbum], up to [await fetch(...)].  The id is put into [voteLoading]
    and the error is cleared; then the request is built, still inside the
    [try]: [xsrf] is what [getCookie('XSRF-TOKEN')] does there, throw or return
    the token for the header.  When it throws, [fetch] is not called; the
    [catch] and [finally] blocks run on the thrown value at once, as they run on
    the rejection of [await fetch(...)]. *)
Definition voteAlbum_call (albumId : Z) (voteType : VoteType)
    (xsrf : Thrown + string) (st : Store) : Store * Suspension :=
  if decide (albumId ∈ voteLoading st) then (st, Returned)
  else
    let st1 := set_error None (set_voteLoading ({[albumId]} ∪ voteLoading st) st) in
    match xsrf with
    | inr _ => (st1, Awaiting (CastVote albumId voteType))
    | inl err => ended (voteAlbum_settle albumId (Rejects err) st1)
    end.

(** [deleteAlbum], from the settlement of the request on; the body of the
    response is not read. *)
Definition deleteAlbum_settle {A} (albumId : Z) (s : Settlement A)
    : Store → Store * Completion :=
  settle_promise
    (try_catch
       (response ← await_fetch s;
        if negb (ok response) then throw (ErrorObject "Failed to delete album")
        else
          modify (λ st, set_albums (filter (λ a, id a ≠ albumId) (albums st)) st);;
          modify (set_cache ∅))
       (λ err,
          modify (set_error (Some (message_of err "Failed to delete album")));;
          value ← gets error;
          throw (match value with Some m => StringValue m | None => OtherValue end))).

(** [deleteAlbum], up to [await fetch(...)]: the request is built inside
    the [try], with [xsrf] what [getCookie('XSRF-TOKEN')] does; when it throws,
    the [catch] block runs at once and no request is issued. *)
Definition deleteAlbum_call (albumId : Z) (xsrf : Thrown + string) (st : Store)
    : Store * Suspension :=
  match xsrf with
  | inr _ => (st, Awaiting (DeleteAlbum albumId))
  | inl err => ended (deleteAlbum_settle albumId (Rejects err : Settlement unit) st)
  end.

Definition updateSearch (query : string) (st : Store) : Store :=
  set_currentPage 1 (set_searchQuery query st).

Definition clearCache (st : Store) : Store := set_cache ∅ st.

(** ** The store among its callers and the network

    The calls of the view and the settlements of the outstanding requests
    interleave on one thread.  A world is the store together with the requests
    that are issued and not yet settled, oldest first. *)

Record World := {
  store : Store;
  outstanding : list Request
}.

Definition init_world : World := {| store := init_store; outstanding := [] |}.

Inductive Event :=
  | call_fetchAlbums (filters : AlbumFilters)
  | call_voteAlbum (albumId : Z) (voteType : VoteType) (xsrf : Thrown + string)
  | call_deleteAlbum (albumId : Z) (xsrf : Thrown + string)
  | call_updateSearch (query : string)
  | call_clearCache
  | write_currentPage (p : Z)  (* the pagination buttons of the view *)
  | settle_fetchAlbums (n : nat) (s : Settlement PaginatedAlbumResponse)
  | settle_voteAlbum (n : nat) (s : Settlement VoteResponse)
  | settle_deleteAlbum (n : nat) (s : Settlement unit).

(** A call ran its synchronous prefix. *)
Definition after_call (r : Store * Suspension) (w : World) : World :=
  match r.2 with
  | Returned | Threw _ => {| store := r.1; outstanding := outstanding w |}
  | Awaiting req => {| store := r.1; outstanding := outstanding w ++ [req] |}
  end.

(** The [n]-th outstanding request settled and its continuation ran. *)
Definition after_settle (n : nat) (r : Store * Completion) (w : World) : World :=
  {| store := r.1; outstanding := delete n (outstanding w) |}.

(** One event; [None] when the event is not enabled (a settlement for a
    request that is not outstanding). *)
Definition step (e : Event) (w : World) : option World :=
  match e with
  | call_fetchAlbums filters =>
      Some (after_call (fetchAlbums_call filters (store w)) w)
  | call_voteAlbum albumId voteType xsrf =>
      Some (after_call (voteAlbum_call albumId voteType xsrf (store w)) w)
  | call_deleteAlbum albumId xsrf =>
      Some (after_call (deleteAlbum_call albumId xsrf (store w)) w)
  | call_updateSearch query =>
      Some {| store := updateSearch query (store w); outstanding := outstanding w |}
  | call_clearCache =>
      Some {| store := clearCache (store w); outstanding := outstanding w |}
  | write_currentPage p =>
      Some {| store := set_currentPage p (store w); outstanding := outstanding w |}
  | settle_fetchAlbums n s =>
      match outstanding w !! n with
      | Some (ListAlbums p q) =>
          Some (after_settle n
                  (fetchAlbums_settle {| page := p; search := q |} s (store w)) w)
      | _ => None
      end
  | settle_voteAlbum n s =>
      match outstanding w !! n with
      | Some (CastVote albumId _) =>
          Some (after_settle n (voteAlbum_settle albumId s (store w)) w)
      | _ => None
      end
  | settle_deleteAlbum n s =>
      match outstanding w !! n with
      | Some (DeleteAlbum albumId) =>
          Some (after_settle n (deleteAlbum_settle albumId s (store w)) w)
      | _ => None
      end
  end.

Fixpoint run (es : list Event) (w : World) : option World :=
  match es with
  | [] => Some w
  | e :: es' =>
      match step e w with
      | Some w' => run es' w'
      | None => None
      end
  end.

(** The worlds the store can be in. *)
Inductive reachable : World → Prop :=
  | reachable_init : reachable init_world
  | reachable_step w e w' : reachable w → step e w = Some w' → reachable w'.

(** The request is a vote for [albumId]. *)
Definition is_vote_for (albumId : Z) (req : Request) : bool :=
  match req with
  | CastVote i _ => bool_decide (i = albumId)
  | _ => false
  end.

(** The number of outstanding vote requests for [albumId]. *)
Definition outstanding_votes (albumId : Z) (w : World) : nat :=
  length (filter (λ req, is_vote_for albumId req = true) (outstanding w)).

(** What the [try] body of a continuation throws for a settlement, if it
    throws: the rejection of [fetch], the error raised for a response that is
    not ok, or the rejection of [response.json()]. *)
Definition thrown_by {A} (not_ok : string) (s : Settlement A) : option Thrown :=
  match s with
  | Rejects err => Some err
  | Resolves response =>
      if ok response then
        match json response with
        | inl err => Some err
        | inr _ => None
        end
      else Some (ErrorObject not_ok)
  end.

(** The same for [deleteAlbum], which does not read the body. *)
Definition thrown_by_status {A} (not_ok : string) (s : Settlement A) : option Thrown :=
  match s with
  | Rejects err => Some err
  | Resolves response =>
      if ok response then None else Some (ErrorObject not_ok)
  end.

(** ** The notions of the statements *)

Definition count_of (t : VoteType) (vs : list Vote) : Z :=
  Z.of_nat (length (filter (λ v, vote v = t) vs)).

(** The net score of an album: its up votes minus its down votes. *)
Definition net_score (a : Album) : Z :=
  count_of up (votes a) - count_of down (votes a).

(** [a] may stand before [b] in the ranking: a higher net score, or the same
    net score and a title that does not collate after. *)
Definition ranked_before (lc : string → string → Z) (a b : Album) : Prop :=
  net_score a > net_score b
  ∨ (net_score a = net_score b ∧ lc (song_name a) (song_name b) ≤ 0).

(** Two albums tie: the same net score and titles that collate equal. *)
Definition ranking_tie (lc : string → string → Z) (a b : Album) : Prop :=
  net_score a = net_score b ∧ lc (song_name a) (song_name b) = 0.

Global Instance ranking_tie_dec lc a b : Decision (ranking_tie lc a b).
Proof. unfold ranking_tie. apply _. Defined.

Fixpoint no_dash (s : string) : Prop :=
  match s with
  | EmptyString => True
  | String ch s' => ch ≠ "-"%char ∧ no_dash s'
  end.

(** The settlement of a request that succeeded with [body]. *)
Definition ok_with {A} (body : A) : Settlement A :=
  Resolves {| ok := true; json := inr body |}.

(** The gate: an album id is in [voteLoading] exactly when one vote request
    for it is outstanding, and never more than one is. *)
Definition vote_gate_inv (w : World) : Prop :=
  ∀ albumId,
    outstanding_votes albumId w
    = if decide (albumId ∈ voteLoading (store w)) then 1%nat else 0%nat.

(** The events that are neither mutations nor settlements: the queries and
    the writes of the search text and of the page number. *)
Definition is_read_event (e : Event) : Prop :=
  match e with
  | call_fetchAlbums _ | call_updateSearch _ | write_currentPage _ => True
  | _ => False
  end.

(** The events that leave the cache standing: the read events and the
    settlements of queries.  The others are the mutations [voteAlbum] and
    [deleteAlbum], their settlements, and [clearCache]. *)
Definition is_query_event (e : Event) : Prop :=
  match e with
  | call_fetchAlbums _ | call_updateSearch _ | write_currentPage _
  | settle_fetchAlbums _ _ => True
  | _ => False
  end.

(** ** Concrete data *)

(** A collation to run the ranking with: the order of the code units. *)
Definition ordinal_collation (s t : string) : Z :=
  match String.compare s t with
  | Lt => -1
  | Eq => 0
  | Gt => 1
  end.

Definition demo_vote (i user : Z) (t : VoteType) : Vote :=
  {| vote_id := i; album_id := 1; user_id := user; vote := t;
     vote_created_at := "2024-05-01"; vote_updated_at := "2024-05-01" |}.

Definition demo_album (i : Z) (title : string) (vs : list Vote) : Album :=
  {| id := i; song_name := title; artist_name := "artist";
     album_cover := None; created_at := "2024-05-01";
     updated_at := "2024-05-01"; votes := vs |}.

Definition demo_page (l : list Album) : PaginatedAlbumResponse :=
  {| current_page := 1; data := l; first_page_url := "/api/albums?page=1";
     from := 1; last_page := 3; last_page_url := "/api/albums?page=3";
     links := []; next_page_url := Some "/api/albums?page=2";
     path := "/api/albums"; per_page := 2; prev_page_url := None;
     to := 2; total := 6 |}.

(** Three albums: net scores 0, 1 and 1. *)
Definition demo_albums : list Album :=
  [ demo_album 1 "Zebra" [demo_vote 1 10 up; demo_vote 2 11 down];
    demo_album 2 "Mango" [demo_vote 3 10 up];
    demo_album 3 "Apple" [demo_vote 4 12 up; demo_vote 5 13 up; demo_vote 6 14 down] ].

Definition demo_store : Store := set_albums demo_albums init_store.

Definition demo_filters : AlbumFilters := {| page := 1; search := "" |}.

(** The world in which one vote for album 1 is outstanding. *)
Definition vote_pending_world : World :=
  after_call (voteAlbum_call 1 up (inr "token") init_store) init_world.

(** Read events that the cache serves, and the world they lead to after a
    first query succeeded. *)
Definition demo_between : list Event :=
  [call_updateSearch "jazz"; write_currentPage 1; call_fetchAlbums demo_filters].

Definition demo_cached_world : World :=
  let st1 := (fetchAlbums_call demo_filters init_store).1 in
  let st2 := (fetchAlbums_settle demo_filters (ok_with (demo_page demo_albums)) st1).1 in
  let st3 := set_currentPage 1 (updateSearch "jazz" st2) in
  {| store := (fetchAlbums_call demo_filters st3).1; outstanding := [] |}.

(** A response with status 401, and a fetch that found no network. *)
Definition demo_unauthorized : Settlement PaginatedAlbumResponse :=
  Resolves {| ok := false; json := inl (ErrorObject "Unexpected end of JSON input") |}.

Definition demo_offline : Settlement VoteResponse :=
  Rejects (ErrorObject "NetworkError when attempting to fetch resource.").

(** ** Statements over any state that may throw

    The auth store and the views run the same [try]/[catch]/[finally] shapes
    as the album store, over their own state. *)

Definition Eff (S A : Type) : Type := S → S * (Thrown + A).

Global Instance Eff_ret {S} : MRet (Eff S) := λ A a st, (st, inr a).
Global Instance Eff_bind {S} : MBind (Eff S) := λ A B f m st,
  match m st with
  | (st', inr a) => f a st'
  | (st', inl e) => (st', inl e)
  end.

Definition eff_throw {S A} (e : Thrown) : Eff S A := λ st, (st, inl e).
Definition eff_modify {S} (f : S → S) : Eff S unit := λ st, (f st, inr tt).
Definition eff_await {S A} (r : Thrown + A) : Eff S A := λ st, (st, r).

Definition eff_await_fetch {S A} (s : Settlement A) : Eff S (Response A) :=
  match s with
  | Rejects err => eff_throw err
  | Resolves response => mret response
  end.

Definition eff_try_catch_finally {S A} (body : Eff S A)
    (handler : Thrown → Eff S A) (finalizer : Eff S unit) : Eff S A := λ st,
  let '(st1, r1) := body st in
  let '(st2, r2) :=
    match r1 with
    | inl err => handler err st1
    | inr a => (st1, inr a)
    end in
  let '(st3, r3) := finalizer st2 in
  (st3, match r3 with inl err => inl err | inr _ => r2 end).

Definition eff_settle_promise {S} (m : Eff S unit) (st : S) : S * Completion :=
  match m st with
  | (st', inr _) => (st', Fulfilled)
  | (st', inl err) => (st', Rejected err)
  end.

(** ** stores/auth.ts *)

Module Auth.

(** The user object of the login response.  The interface [User] declares
    [id], [email] and [name]; [isAdmin] reads [role] off the same object. *)
Record User := {
  id : Z;
  email : string;
  name : string;
  role : option string
}.

Record LoginData := {
  login_email : string;
  login_password : string
}.

Record RegisterData := {
  register_name : string;
  register_email : string;
  register_password : string;
  register_password_confirmation : string
}.

(** [result] of [await response.json()], as far as it is read. *)
Record AuthResult := {
  result_token : string;
  result_user : User
}.

(** The refs of the store, with the two collaborators it writes to:
    [localStorage] and the paths handed to [router.push], oldest first. *)
Record Env := {
  user : option User;
  token : option string;
  loading : bool;
  error : option string;
  localStorage : gmap string string;
  pushed : list string
}.

(** A freshly created store on a page whose storage is [storage]. *)
Definition fresh (storage : gmap string string) : Env := {|
  user := None; token := None; loading := false; error := None;
  localStorage := storage; pushed := []
|}.

Definition set_user (v : option User) (e : Env) : Env :=
  {| user := v; token := token e; loading := loading e; error := error e;
     localStorage := localStorage e; pushed := pushed e |}.

Definition set_token (v : option string) (e : Env) : Env :=
  {| user := user e; token := v; loading := loading e; error := error e;
     localStorage := localStorage e; pushed := pushed e |}.

Definition set_loading (v : bool) (e : Env) : Env :=
  {| user := user e; token := token e; loading := v; error := error e;
     localStorage := localStorage e; pushed := pushed e |}.

Definition set_error (v : option string) (e : Env) : Env :=
  {| user := user e; token := token e; loading := loading e; error := v;
     localStorage := localStorage e; pushed := pushed e |}.

(** [localStorage.setItem(key, value)] and [localStorage.removeItem(key)] *)
Definition setItem (key value : string) (e : Env) : Env :=
  {| user := user e; token := token e; loading := loading e; error := error e;
     localStorage := <[key := value]> (localStorage e); pushed := pushed e |}.

Definition removeItem (key : string) (e : Env) : Env :=
  {| user := user e; token := token e; loading := loading e; error := error e;
     localStorage := delete key (localStorage e); pushed := pushed e |}.

(** [router.push(path)]; the promise it returns is not awaited. *)
Definition push (p : string) (e : Env) : Env :=
  {| user := user e; token := token e; loading := loading e; error := error e;
     localStorage := localStorage e; pushed := pushed e ++ [p] |}.

(** The truthiness of a string: not empty. *)
Definition truthy (s : string) : bool := negb (String.eqb s "").

(** [computed(() => !!token.value)] *)
Definition isAuthenticated (e : Env) : bool :=
  match token e with
  | Some t => truthy t
  | None => false
  end.

(** The requests of [login] and [register] after the CSRF cookie. *)
Inductive Request :=
  | PostLogin (data : LoginData)
  | PostRegister (data : RegisterData).

(** What a call is suspended on: [await fetchCsrfToken()], with the request
    that follows it, or the response to that request. *)
Inductive Pending :=
  | AwaitCsrf (next : Request)
  | AwaitResponse (req : Request).

Inductive Stage :=
  | Done (c : Completion)
  | Waiting (on : Pending).

(** The [catch] and the [finally] of [login] and [register]. *)
Definition handler (err : Thrown) : Eff Env unit :=
  eff_modify (set_error (Some (message_of err "An error occurred"))).

Definition finalizer : Eff Env unit := eff_modify (set_loading false).

(** [login] and [register], up to [await fetchCsrfToken()]. *)
Definition login (data : LoginData) (e : Env) : Env * Stage :=
  (set_error None (set_loading true e), Waiting (AwaitCsrf (PostLogin data))).

Definition register (data : RegisterData) (e : Env) : Env * Stage :=
  (set_error None (set_loading true e), Waiting (AwaitCsrf (PostRegister data))).

(** From the settlement of the CSRF request on: a rejection is thrown inside
    the [try]; any response, ok or not, lets the call go on to its request,
    for whose header the XSRF cookie is read: [xsrf] is what that reading
    gives, in one version of the store [getCsrfToken()], in the other
    [getCookie('XSRF-TOKEN')], and what it throws is thrown inside the [try]
    too. *)
Definition csrf_settle {H} (next : Request) (c : Settlement unit)
    (xsrf : Thrown + H) (e : Env) : Env * Stage :=
  match c with
  | Rejects err =>
      let r := eff_settle_promise
                 (eff_try_catch_finally (eff_throw err) handler finalizer) e in
      (r.1, Done r.2)
  | Resolves _ =>
      match xsrf with
      | inl err =>
          let r := eff_settle_promise
                     (eff_try_catch_finally (eff_throw err) handler finalizer) e in
          (r.1, Done r.2)
      | inr _ => (e, Waiting (AwaitResponse next))
      end
  end.

(** The text of the error thrown for a response that is not ok. *)
Definition not_ok_message (req : Request) : string :=
  match req with
  | PostLogin _ => "Invalid credentials"
  | PostRegister _ => "Registration failed"
  end.

(** From the settlement of the login or register request on. *)
Definition response_settle (req : Request) (s : Settlement AuthResult)
    : Env → Env * Completion :=
  eff_settle_promise
    (eff_try_catch_finally
       (response ← eff_await_fetch s;
        if negb (ok response) then eff_throw (ErrorObject (not_ok_message req))
        else
          result ← eff_await (json response);
          eff_modify (set_token (Some (result_token result)));;
          eff_modify (set_user (Some (result_user result)));;
          eff_modify (setItem "token" (result_token result));;
          eff_modify (push "/albums"))
       handler finalizer).

Definition logout (e : Env) : Env :=
  push "/login" (removeItem "token" (set_user None (set_token None e))).

Definition init (e : Env) : Env :=
  match localStorage e !! "token" with
  | Some savedToken => if truthy savedToken then set_token (Some savedToken) e else e
  | None => e
  end.

(** The auth store among its callers and the network. *)
Record World := {
  env : Env;
  outstanding : list Pending
}.

Inductive Event :=
  | call_login (data : LoginData)
  | call_register (data : RegisterData)
  | call_logout
  | call_init
  | settle_csrf (n : nat) (c : Settlement unit) (xsrf : Thrown + option string)
  | settle_response (n : nat) (s : Settlement AuthResult).

Definition after_stage (r : Env * Stage) (l : list Pending) : World :=
  match r.2 with
  | Done _ => {| env := r.1; outstanding := l |}
  | Waiting on => {| env := r.1; outstanding := l ++ [on] |}
  end.

Definition step (ev : Event) (w : World) : option World :=
  match ev with
  | call_login data => Some (after_stage (login data (env w)) (outstanding w))
  | call_register data => Some (after_stage (register data (env w)) (outstanding w))
  | call_logout => Some {| env := logout (env w); outstanding := outstanding w |}
  | call_init => Some {| env := init (env w); outstanding := outstanding w |}
  | settle_csrf n c xsrf =>
      match outstanding w !! n with
      | Some (AwaitCsrf next) =>
          Some (after_stage (csrf_settle next c xsrf (env w))
                  (delete n (outstanding w)))
      | _ => None
      end
  | settle_response n s =>
      match outstanding w !! n with
      | Some (AwaitResponse req) =>
          Some {| env := (response_settle req s (env w)).1;
                  outstanding := delete n (outstanding w) |}
      | _ => None
      end
  end.

Fixpoint run (evs : list Event) (w : World) : option World :=
  match evs with
  | [] => Some w
  | ev :: evs' =>
      match step ev w with
      | Some w' => run evs' w'
      | None => None
      end
  end.

(** The worlds reached from a fresh store, whatever the storage holds. *)
Inductive reachable : World → Prop :=
  | reachable_fresh storage :
      reachable {| env := fresh storage; outstanding := [] |}
  | reachable_step w ev w' : reachable w → step ev w = Some w' → reachable w'.

End Auth.


(** ** router/index.ts *)

Module Router.

(** A route record: its path, its name and the truthiness of
    [meta.requiresAuth] (absent on the login and register routes). *)
Record RouteRecord := {
  path : string;
  name : string;
  requiresAuth : bool
}.

Definition routes : list RouteRecord := [
  {| path := "/"; name := "home"; requiresAuth := true |};
  {| path := "/about"; name := "about"; requiresAuth := true |};
  {| path := "/albums"; name := "albums"; requiresAuth := true |};
  {| path := "/login"; name := "login"; requiresAuth := false |};
  {| path := "/register"; name := "register"; requiresAuth := false |}
].

(** The target [to] of a navigation, as far as the guard reads it:
    [to.path] and the truthiness of [to.meta.requiresAuth]. *)
Record Location := {
  to_path : string;
  to_requiresAuth : bool
}.

(** What the guard hands to [next]. *)
Inductive Decision :=
  | proceed
  | redirect (target : string).

(** [router.beforeEach((to, from, next) => ...)] *)
Definition beforeEach (to : Location) (isAuthenticated : bool) : Decision :=
  if to_requiresAuth to && negb isAuthenticated then redirect "/login"
  else if (String.eqb (to_path to) "/login" || String.eqb (to_path to) "/register")
          && isAuthenticated then redirect "/"
  else proceed.

Section navigation.
(** The matcher of [createRouter]: the record a path resolves to, if any. *)
Variable resolve : string → option RouteRecord.

Definition location_of (p : string) : Location :=
  {| to_path := p;
     to_requiresAuth := match resolve p with
                        | Some r => requiresAuth r
                        | None => false
                        end |}.

(** A navigation with its redirects: the guard runs again on every target
    handed to [next].  [None] when the redirects do not end within [fuel]. *)
Fixpoint navigate (fuel : nat) (p : string) (isAuthenticated : bool) : option string :=
  match fuel with
  | O => None
  | S fuel' =>
      match beforeEach (location_of p) isAuthenticated with
      | proceed => Some p
      | redirect target => navigate fuel' target isAuthenticated
      end
  end.
End navigation.

(** A matcher that resolves exactly the paths of the table. *)
Definition exact_match (p : string) : option RouteRecord :=
  snd <$> list_find (λ r, path r = p) routes.

End Router.

(** ** views/LoginView.vue and views/RegisterView.vue *)

Module LoginView.
(** [handleSubmit]: the two refs of the form are passed in. *)
Definition handleSubmit (email password : string) (e : Auth.Env) : Auth.Env * Auth.Stage :=
  if Auth.truthy email && Auth.truthy password then
    Auth.login {| Auth.login_email := email; Auth.login_password := password |} e
  else (e, Auth.Done Fulfilled).
End LoginView.

Module RegisterView.
Definition handleSubmit (name email password password_confirmation : string)
    (e : Auth.Env) : Auth.Env * Auth.Stage :=
  if Auth.truthy name && Auth.truthy email && Auth.truthy password
     && Auth.truthy password_confirmation then
    Auth.register {| Auth.register_name := name; Auth.register_email := email;
                     Auth.register_password := password;
                     Auth.register_password_confirmation := password_confirmation |} e
  else (e, Auth.Done Fulfilled).
End RegisterView.

(** ** views/AlbumListView.vue *)

Module AlbumListView.

(** The refs of the view next to the two stores. *)
Record ViewState := {
  searchInput : string;
  showDeleteConfirm : option Z
}.

(** [loadAlbums]: the query for the page and the search text of the store.
    Its promise is that of [fetchAlbums]. *)
Definition loadAlbums (st : Store) : Store * Suspension :=
  fetchAlbums_call {| page := currentPage st; search := searchQuery st |} st.

(** The function handed to [debounce]: what runs once the keystrokes rest. *)
Definition search_callback (value : string) (st : Store) : Store * Suspension :=
  loadAlbums (updateSearch value st).

(** The pagination block is rendered while [totalPages > 1]; [Previous] is
    disabled on page 1, [Next] on the last page.  A click on a button that is
    not rendered or disabled does not happen: [None]. *)
Definition click_previous (st : Store) : option (Store * Suspension) :=
  if decide (totalPages st > 1 ∧ currentPage st ≠ 1) then
    Some (loadAlbums (set_currentPage (currentPage st - 1) st))
  else None.

Definition click_next (st : Store) : option (Store * Suspension) :=
  if decide (totalPages st > 1 ∧ currentPage st ≠ totalPages st) then
    Some (loadAlbums (set_currentPage (currentPage st + 1) st))
  else None.



Definition handleDelete (albumId : Z) (v : ViewState) : ViewState :=
  {| searchInput := searchInput v; showDeleteConfirm := Some albumId |}.


(** [confirmDelete]: the dialog is closed after [deleteAlbum] only when its
    promise is fulfilled; the [catch] is empty. *)
Definition confirmDelete_call (albumId : Z) (xsrf : Thrown + string) (st : Store)
    : Store * Suspension :=
  match deleteAlbum_call albumId xsrf st with
  | (st', Threw _) => (st', Returned)
  | r => r
  end.


(** [hasVoted]: [authStore.user?.id] is undefined without a user, and no
    [user_id] equals it. *)
Definition hasVoted (user : option Auth.User) (album : Album) (voteType : VoteType) : bool :=
  existsb (λ v, match user with
                | Some u => bool_decide (user_id v = Auth.id u)
                | None => false
                end && bool_decide (vote v = voteType))
          (votes album).



End AlbumListView.

(** ** Reading the XSRF cookie: [getCookie] and [getCsrfToken] *)

Module Cookie.

(** [s.startsWith(p)] *)
Fixpoint startsWith (p s : string) : bool :=
  match p, s with
  | EmptyString, _ => true
  | String _ _, EmptyString => false
  | String a p', String b s' => Ascii.eqb a b && startsWith p' s'
  end.

(** [s.split(sep)] for a separator that is not empty: the text is read from
    the left; where the separator starts, the piece read so far is closed and
    reading goes on behind the separator ([skip] counts what is left of it).
    The separators of the code are ASCII, so that cutting a text at them is
    the same on code units and on the characters of the model. *)
Fixpoint split_go (sep : string) (skip : nat) (cur s : string) : list string :=
  match s with
  | EmptyString => [cur]
  | String c s' =>
      match skip with
      | S k => split_go sep k cur s'
      | O =>
          if startsWith sep s then
            cur :: split_go sep (String.length sep - 1) "" s'
          else split_go sep 0 (cur +:+ String c "") s'
      end
  end.

Definition split (sep s : string) : list string := split_go sep 0 "" s.

Section readers.
(** [decodeURIComponent] of the runtime: it throws on a malformed escape. *)
Variable decodeURIComponent : string → Thrown + string.

(** [getCookie(name)], [cookie] being [document.cookie]. *)
Definition getCookie (cookie name : string) : Thrown + string :=
  let value := "; " +:+ cookie in
  let parts := split ("; " +:+ name +:+ "=") value in
  if decide (length parts = 2%nat) then
    match last parts ≫= (λ part, head (split ";" part)) with
    | Some cookieValue =>
        if Auth.truthy cookieValue then decodeURIComponent cookieValue
        else inr ""
    | None => inr ""
    end
  else inr "".

(** [getCsrfToken()]; [null] is [None].  An index past the end of the array
    reads [undefined], which [decodeURIComponent] takes as a string. *)
Definition getCsrfToken (cookie : string) : Thrown + option string :=
  let cookies := split "; " cookie in
  match List.find (startsWith "XSRF-TOKEN=") cookies with
  | Some xsrfToken =>
      if Auth.truthy xsrfToken then
        match decodeURIComponent
                (default "undefined" (split "=" xsrfToken !! 1%nat)) with
        | inl err => inl err
        | inr token => inr (Some token)
        end
      else inr None
  | None => inr None
  end.
End readers.

(** [document.cookie] for a jar of cookies, name and value: [n1=v1; n2=v2]. *)
Fixpoint render (jar : list (string * string)) : string :=
  match jar with
  | [] => ""
  | (n, v) :: rest =>
      match rest with
      | [] => n +:+ "=" +:+ v
      | _ :: _ => n +:+ "=" +:+ v +:+ "; " +:+ render rest
      end
  end.

(** The same with the separator in front of every cookie. *)
Fixpoint segments (jar : list (string * string)) : string :=
  match jar with
  | [] => ""
  | (n, v) :: rest => "; " +:+ n +:+ "=" +:+ v +:+ segments rest
  end.

(** The character does not occur in the string. *)
Fixpoint lacks (ch : ascii) (s : string) : Prop :=
  match s with
  | EmptyString => True
  | String c s' => c ≠ ch ∧ lacks ch s'
  end.

(** A jar as the browser renders it: no semicolon in names and values, no
    equals sign in names. *)
Definition well_formed (jar : list (string * string)) : Prop :=
  Forall (λ c, lacks ";" c.1 ∧ lacks "=" c.1 ∧ lacks ";" c.2) jar.

(** The value of the cookie called [name] when the jar holds exactly one. *)
Definition the_cookie (name : string) (jar : list (string * string)) : option string :=
  match filter (λ c, c.1 = name) jar with
  | [c] => Some c.2
  | _ => None
  end.

(** The value of the first cookie called [name]. *)
Definition first_cookie (name : string) (jar : list (string * string)) : option string :=
  snd <$> head (filter (λ c, c.1 = name) jar).

(** The pieces [split] cuts the segments of a jar into at the cookies called
    [name], the piece being read first. *)
Fixpoint parts_from (name cur : string) (jar : list (string * string)) : list string :=
  match jar with
  | [] => [cur]
  | (n, v) :: rest =>
      if decide (n = name) then cur :: parts_from name v rest
      else parts_from name (cur +:+ "; " +:+ n +:+ "=" +:+ v) rest
  end.

(** The rows [split] cuts the segments of a jar into at every separator. *)
Fixpoint rows_from (cur : string) (jar : list (string * string)) : list string :=
  match jar with
  | [] => [cur]
  | (n, v) :: rest => cur :: rows_from (n +:+ "=" +:+ v) rest
  end.

(** The row of a cookie in [document.cookie]. *)
Definition row (c : string * string) : string := c.1 +:+ "=" +:+ c.2.

End Cookie.

(** A cookie jar with the XSRF cookie of the server between two others. *)
Definition demo_jar : list (string * string) :=
  [("a", "1"); ("XSRF-TOKEN", "abc%3D"); ("b", "2")].

(** ** Concrete data of the auth store *)



Definition demo_login : Auth.Request :=
  Auth.PostLogin {| Auth.login_email := "ada@example.org";
                    Auth.login_password := "secret" |}.

Definition demo_bad_credentials : Settlement Auth.AuthResult :=
  Resolves {| ok := false; json := inl (ErrorObject "Unexpected end of JSON input") |}.




(** A store on page 2 of 3. *)
Definition demo_paged_store : Store :=
  set_currentPage 2 (set_totalPages 3 demo_store).

(** A page of a collection that has [count] pages. *)
Definition demo_page_of (count : Z) (l : list Album) : PaginatedAlbumResponse :=
  {| current_page := current_page (demo_page l); data := l;
     first_page_url := first_page_url (demo_page l);
     from := from (demo_page l); last_page := count;
     last_page_url := last_page_url (demo_page l); links := [];
     next_page_url := None; path := path (demo_page l);
     per_page := per_page (demo_page l); prev_page_url := None;
     to := to (demo_page l); total := total (demo_page l) |}.

(** Page 3 is fetched while the collection has two pages; the collection
    grows, and page 2 is fetched while it has five. *)
Definition demo_stale_events : list Event :=
  [write_currentPage 3;
   call_fetchAlbums {| page := 3; search := "" |};
   settle_fetchAlbums 0 (ok_with (demo_page_of 2 []));
   write_currentPage 2;
   call_fetchAlbums {| page := 2; search := "" |};
   settle_fetchAlbums 0 (ok_with (demo_page_of 5 demo_albums))].

(** The store these events lead to: page 2 of 5, page 3 of 2 in the cache. *)
Definition demo_stale_store : Store :=
  set_cache (cache_put {| page := 2; search := "" |} (demo_page_of 5 demo_albums)
               (cache_put {| page := 3; search := "" |} (demo_page_of 2 []) ∅))
    (set_currentPage 2 (set_totalPages 5 demo_store)).

(** The world in which the first query is outstanding. *)
Definition demo_loading_world : World :=
  after_call (fetchAlbums_call demo_filters init_store) init_world.

(** ** Vote tally *)

Lemma fold_count_vote vs acc :
  fold_left count_vote vs acc =
  {| count_up := count_up acc + count_of up vs;
     count_down := count_down acc + count_of down vs |}.
Proof.
  revert acc. induction vs as [|v vs IH]; intros acc.
  - destruct acc; unfold count_of; simpl. f_equal; lia.
  - simpl. rewrite IH. unfold count_vote, count_of.
    rewrite !filter_cons.
    destruct (vote v); simpl; f_equal; lia.
Qed.

Lemma count_of_partition vs :
  count_of up vs + count_of down vs = Z.of_nat (length vs).
Proof.
  unfold count_of. induction vs as [|v vs IH]; [done|].
  rewrite !filter_cons. destruct (vote v); simpl length; simpl in *; lia.
Qed.

Lemma compareAlbums_net_score lc a b :
  compareAlbums lc a b =
  if decide (net_score b ≠ net_score a) then net_score b - net_score a
  else lc (song_name a) (song_name b).
Proof.
  unfold compareAlbums, calculateVoteCounts, net_score.
  rewrite !fold_count_vote. simpl. reflexivity.
Qed.

Lemma getTotalVotes_net_score a : View.getTotalVotes a = net_score a.
Proof.
  unfold View.getTotalVotes, calculateVoteCounts, net_score.
  rewrite fold_count_vote. simpl. reflexivity.
Qed.

Lemma View_compareAlbums_eq lc a b :
  View.compareAlbums lc a b = compareAlbums lc a b.
Proof. reflexivity. Qed.

(** C9. For every vote list, [calculateVoteCounts] returns the number of up
    votes and the number of down votes, the two counts partition the list,
    and the ranking compares albums by the difference of the two counts: its
    comparator is the difference of the net scores when they differ and the
    collation of the titles otherwise; [getTotalVotes] of the view is the same
    net score. *)
Theorem calculateVoteCounts_partition (vs : list Vote) :
  calculateVoteCounts vs =
    {| count_up := count_of up vs; count_down := count_of down vs |}
  ∧ count_up (calculateVoteCounts vs) + count_down (calculateVoteCounts vs)
    = Z.of_nat (length vs)
  ∧ (∀ a,
       count_up (calculateVoteCounts (votes a))
       - count_down (calculateVoteCounts (votes a)) = net_score a
       ∧ View.getTotalVotes a = net_score a)
  ∧ (∀ lc a b,
       compareAlbums lc a b =
       if decide (net_score b ≠ net_score a) then net_score b - net_score a
       else lc (song_name a) (song_name b)).
Proof.
  assert (calculateVoteCounts vs =
    {| count_up := count_of up vs; count_down := count_of down vs |}) as Heq.
  { unfold calculateVoteCounts. rewrite fold_count_vote. simpl. reflexivity. }
  rewrite Heq. simpl. split_and!.
  - reflexivity.
  - apply count_of_partition.
  - intros a. split; [|apply getTotalVotes_net_score].
    unfold calculateVoteCounts. rewrite fold_count_vote. simpl. reflexivity.
  - apply compareAlbums_net_score.
Qed.

(** ** The sort *)

Section js_sort_facts.
Context {A : Type} (c : A → A → Z).

Lemma sort_insert_Permutation x l : sort_insert c x l ≡ₚ x :: l.
Proof.
  induction l as [|y l IH]; simpl; [done|].
  case_decide; [done|]. rewrite IH. apply Permutation_swap.
Qed.

Lemma js_sort_Permutation l : js_sort c l ≡ₚ l.
Proof.
  induction l as [|x l IH]; simpl; [done|].
  rewrite sort_insert_Permutation. by rewrite IH.
Qed.

(** A list that is already in order is left as it is. *)
Lemma sort_insert_HdRel x l :
  HdRel (λ a b, c a b ≤ 0) x l → sort_insert c x l = x :: l.
Proof.
  destruct 1 as [|y l Hxy]; simpl; [done|]. by rewrite decide_True.
Qed.

Lemma js_sort_Sorted_id l : Sorted (λ a b, c a b ≤ 0) l → js_sort c l = l.
Proof.
  induction 1 as [|x l Hl IH Hx]; simpl; [done|].
  rewrite IH. by apply sort_insert_HdRel.
Qed.

(** The comparator is consistent: the sign flips when the arguments are
    swapped, and "not greater" is transitive. *)
Hypothesis c_antisym : ∀ a b, Z.sgn (c a b) = - Z.sgn (c b a).
Hypothesis c_trans : ∀ a b d, c a b ≤ 0 → c b d ≤ 0 → c a d ≤ 0.

Lemma c_flip a b : ¬ c a b ≤ 0 → c b a ≤ 0.
Proof. pose proof (c_antisym a b). lia. Qed.

Lemma c_tie_sym a b : c a b = 0 → c b a = 0.
Proof. pose proof (c_antisym a b). lia. Qed.

Lemma c_tie_trans a b d : c a b = 0 → c b d = 0 → c a d = 0.
Proof.
  intros Hab Hbd.
  pose proof (c_tie_sym _ _ Hab). pose proof (c_tie_sym _ _ Hbd).
  assert (c a d ≤ 0) by (apply (c_trans a b d); lia).
  assert (c d a ≤ 0) by (apply (c_trans d b a); lia).
  pose proof (c_antisym a d). lia.
Qed.

Lemma sort_insert_HdRel_inv x y l :
  c y x ≤ 0 → HdRel (λ a b, c a b ≤ 0) y l →
  HdRel (λ a b, c a b ≤ 0) y (sort_insert c x l).
Proof.
  intros Hyx [|z l' Hyz]; simpl; [by constructor|].
  case_decide; by constructor.
Qed.

Lemma sort_insert_Sorted x l :
  Sorted (λ a b, c a b ≤ 0) l → Sorted (λ a b, c a b ≤ 0) (sort_insert c x l).
Proof.
  induction 1 as [|y l Hl IH Hy]; simpl.
  - by repeat constructor.
  - case_decide as Hxy.
    + repeat constructor; done.
    + constructor; [done|]. apply sort_insert_HdRel_inv; [|done].
      by apply c_flip.
Qed.

Lemma js_sort_Sorted l : Sorted (λ a b, c a b ≤ 0) (js_sort c l).
Proof.
  induction l as [|x l IH]; simpl; [constructor|].
  by apply sort_insert_Sorted.
Qed.

Lemma js_sort_StronglySorted l :
  StronglySorted (λ a b, c a b ≤ 0) (js_sort c l).
Proof.
  apply Sorted_StronglySorted; [|apply js_sort_Sorted].
  intros a b d. apply c_trans.
Qed.

(** Stability: the elements that tie with [x] keep their order. *)
Lemma sort_insert_tie_filter x y l :
  filter (λ z, c x z = 0) (sort_insert c y l)
  = filter (λ z, c x z = 0) (y :: l).
Proof.
  induction l as [|z l IH]; simpl; [done|].
  case_decide as Hyz; [done|].
  rewrite (filter_cons _ z), IH, !filter_cons.
  destruct (decide (c x y = 0)) as [Hxy|Hxy]; [|done].
  destruct (decide (c x z = 0)) as [Hxz|Hxz]; [|done].
  exfalso. apply Hyz.
  assert (c y z = 0); [|lia].
  apply (c_tie_trans y x z); [by apply c_tie_sym | done].
Qed.

Lemma js_sort_stable x l :
  filter (λ z, c x z = 0) (js_sort c l) = filter (λ z, c x z = 0) l.
Proof.
  induction l as [|y l IH]; simpl; [done|].
  by rewrite sort_insert_tie_filter, !filter_cons, IH.
Qed.
End js_sort_facts.

(** ** Ranking *)

Section ranking_facts.
Variable localeCompare : string → string → Z.

(** The collation is a total preorder on titles. *)
Hypothesis localeCompare_antisym :
  ∀ s t, Z.sgn (localeCompare s t) = - Z.sgn (localeCompare t s).
Hypothesis localeCompare_trans :
  ∀ s t u, localeCompare s t ≤ 0 → localeCompare t u ≤ 0 → localeCompare s u ≤ 0.

Lemma compareAlbums_le a b :
  compareAlbums localeCompare a b ≤ 0 ↔ ranked_before localeCompare a b.
Proof.
  rewrite compareAlbums_net_score. unfold ranked_before.
  case_decide; lia.
Qed.

Lemma compareAlbums_tie a b :
  compareAlbums localeCompare a b = 0 ↔ ranking_tie localeCompare a b.
Proof.
  rewrite compareAlbums_net_score. unfold ranking_tie.
  case_decide; lia.
Qed.

Lemma compareAlbums_antisym a b :
  Z.sgn (compareAlbums localeCompare a b)
  = - Z.sgn (compareAlbums localeCompare b a).
Proof.
  rewrite !compareAlbums_net_score.
  pose proof (localeCompare_antisym (song_name a) (song_name b)).
  repeat case_decide; lia.
Qed.

Lemma compareAlbums_trans a b d :
  compareAlbums localeCompare a b ≤ 0 → compareAlbums localeCompare b d ≤ 0 →
  compareAlbums localeCompare a d ≤ 0.
Proof.
  rewrite !compareAlbums_le. unfold ranked_before.
  pose proof (localeCompare_trans (song_name a) (song_name b) (song_name d)).
  lia.
Qed.

Lemma StronglySorted_ranked l :
  StronglySorted (λ a b, compareAlbums localeCompare a b ≤ 0) l →
  StronglySorted (ranked_before localeCompare) l.
Proof.
  induction 1 as [|x l Hl IH Hx]; constructor; [done|].
  eapply Forall_impl; [exact Hx|]. intros y. apply compareAlbums_le.
Qed.

Lemma filter_tie_ext x (l : list Album) :
  filter (ranking_tie localeCompare x) l
  = filter (λ y, compareAlbums localeCompare x y = 0) l.
Proof. apply list_filter_iff. intros y. symmetry. apply compareAlbums_tie. Qed.

(** C8. For every collection held by the store, the ranking [sortedAlbums]
    is a permutation of the collection of the same length, every album in
    it stands before all later ones by net score descending and, at equal
    net score, by title ascending in the collation; albums that tie keep the
    order they have in the collection (the sort is stable); the collection
    of the store is only read; and the list the view derives by sorting the
    ranking again is the ranking itself. *)
Theorem sortedAlbums_ranking (st : Store) :
  sortedAlbums localeCompare st ≡ₚ albums st
  ∧ length (sortedAlbums localeCompare st) = length (albums st)
  ∧ StronglySorted (ranked_before localeCompare) (sortedAlbums localeCompare st)
  ∧ StronglySorted (λ a b, net_score b ≤ net_score a)
      (sortedAlbums localeCompare st)
  ∧ (∀ x, filter (ranking_tie localeCompare x) (sortedAlbums localeCompare st)
          = filter (ranking_tie localeCompare x) (albums st))
  ∧ View.sortedAlbums localeCompare (sortedAlbums localeCompare st)
    = sortedAlbums localeCompare st.
Proof.
  unfold sortedAlbums, sortedAlbums_of, View.sortedAlbums.
  pose proof (js_sort_StronglySorted (compareAlbums localeCompare)
                compareAlbums_antisym compareAlbums_trans (albums st)) as Hs.
  split_and!.
  - apply js_sort_Permutation.
  - apply Permutation_length, js_sort_Permutation.
  - by apply StronglySorted_ranked.
  - apply StronglySorted_ranked in Hs.
    induction Hs as [|x l Hl IH Hx]; constructor; [done|].
    eapply Forall_impl; [exact Hx|]. unfold ranked_before. intros y. lia.
  - intros x. rewrite !filter_tie_ext.
    apply js_sort_stable;
      [apply compareAlbums_antisym | apply compareAlbums_trans].
  - apply js_sort_Sorted_id.
    apply (js_sort_Sorted (compareAlbums localeCompare) compareAlbums_antisym).
Qed.
End ranking_facts.

(** ** The cache key *)

Lemma pretty_N_char_no_dash x : pretty_N_char x ≠ "-"%char.
Proof. unfold pretty_N_char. by repeat case_match. Qed.

Lemma string_app_nil_l s : "" +:+ s = s.
Proof. reflexivity. Qed.

Lemma string_app_cons ch t s : String ch t +:+ s = String ch (t +:+ s).
Proof. reflexivity. Qed.

Lemma string_app_nil_r s : s +:+ "" = s.
Proof.
  induction s as [|ch s IH]; [done|]. by rewrite string_app_cons, IH.
Qed.

Lemma string_app_assoc s t u : (s +:+ t) +:+ u = s +:+ (t +:+ u).
Proof.
  induction s as [|ch s IH]; [done|]. by rewrite !string_app_cons, IH.
Qed.

Lemma no_dash_app s t : no_dash s → no_dash t → no_dash (s +:+ t).
Proof.
  intros Hs Ht. induction s as [|ch s IH]; [done|].
  rewrite string_app_cons. destruct Hs. split; [done | by apply IH].
Qed.

(** The digits of a number are put in front of the accumulator. *)
Lemma pretty_N_go_digits x s :
  ∃ t, pretty_N_go x s = t +:+ s ∧ no_dash t ∧ ((0 < x)%N → t ≠ "").
Proof.
  revert s. induction (N.lt_wf_0 x) as [x _ IH]; intros s.
  assert (x = 0 ∨ 0 < x)%N as [->|Hx] by lia.
  - exists "". rewrite pretty_N_go_0. split_and!; [done|done|lia].
  - rewrite pretty_N_go_step by done.
    destruct (IH (x `div` 10)%N (N.div_lt x 10 Hx eq_refl)
                (String (pretty_N_char (x `mod` 10)) s)) as (t & Heq & Ht & _).
    exists (t +:+ String (pretty_N_char (x `mod` 10)) "").
    split_and!.
    + rewrite Heq, string_app_assoc. reflexivity.
    + apply no_dash_app; [done|].
      split; [apply pretty_N_char_no_dash | done].
    + intros _. by destruct t.
Qed.

Lemma pretty_N_digits (x : N) : no_dash (pretty x) ∧ pretty x ≠ "".
Proof.
  unfold pretty, pretty_N. case_decide as Hx.
  - split; [|done]. split; [discriminate | done].
  - destruct (pretty_N_go_digits x "") as (t & -> & Ht & Hne).
    rewrite string_app_nil_r.
    split; [done|]. apply Hne. lia.
Qed.

(** A dash-free prefix ends at the first dash. *)
Lemma dash_split a a' s s' :
  no_dash a → no_dash a' →
  a +:+ "-" +:+ s = a' +:+ "-" +:+ s' → a = a' ∧ s = s'.
Proof.
  revert a'. induction a as [|ch a IH]; intros [|ch' a'];
    rewrite ?string_app_cons, ?string_app_nil_l.
  - intros _ _ [= ->]. done.
  - intros _ [Hch' _] [= Hch _]. by destruct Hch'.
  - intros [Hch _] _ [= Hch' _]. by destruct Hch.
  - intros [_ Ha] [_ Ha'] [= -> Heq].
    destruct (IH a' Ha Ha' Heq) as [-> ->]. done.
Qed.

(** The rendering of an integer, split into its sign and its digits. *)
Lemma pretty_Z_shape (z : Z) :
  ∃ d, no_dash d ∧ d ≠ "" ∧
       pretty z = (if decide (z < 0) then "-" +:+ d else d).
Proof.
  destruct z as [|p|p]; unfold pretty, pretty_Z.
  - exists "0". split_and!; [|done|done]. simpl. split; [discriminate | done].
  - exists (pretty (N.pos p)).
    destruct (pretty_N_digits (N.pos p)). rewrite decide_False by lia. done.
  - exists (pretty (N.pos p)).
    destruct (pretty_N_digits (N.pos p)). rewrite decide_True by lia. done.
Qed.

(** The key tells the filters apart, whatever integer the page is. *)
Lemma getCacheKey_inj f f' : getCacheKey f = getCacheKey f' → f = f'.
Proof.
  destruct f as [p s], f' as [p' s']. unfold getCacheKey. simpl.
  intros Heq.
  assert (pretty p = pretty p' ∧ s = s') as [Hpp ->].
  { destruct (pretty_Z_shape p) as (d & Hd & Hne & Hp).
    destruct (pretty_Z_shape p') as (d' & Hd' & Hne' & Hp').
    rewrite Hp, Hp' in *. clear Hp Hp'.
    repeat case_decide;
      rewrite ?string_app_assoc, ?string_app_cons, ?string_app_nil_l in Heq.
    - injection Heq as Heq.
      destruct (dash_split _ _ _ _ Hd Hd' Heq) as [-> ->]. done.
    - destruct d' as [|ch d']; [done|]. rewrite string_app_cons in Heq.
      injection Heq as <- _. by destruct Hd'.
    - destruct d as [|ch d]; [done|]. rewrite string_app_cons in Heq.
      injection Heq as -> _. by destruct Hd.
    - destruct (dash_split _ _ _ _ Hd Hd' Heq) as [-> ->]. done. }
  apply (inj pretty) in Hpp. by subst.
Qed.

(** ** The continuations, case by case *)

Lemma thrown_by_None {A} m (s : Settlement A) :
  thrown_by m s = None ↔ ∃ body, s = ok_with body.
Proof.
  split.
  - destruct s as [err|[[] [err|body]]]; simpl; try discriminate.
    intros _. by exists body.
  - by intros [body ->].
Qed.

Lemma fetchAlbums_settle_ok f body st :
  fetchAlbums_settle f (ok_with body) st =
  (set_loading false
     (set_cache (cache_put f body (cache st))
        (set_totalPages (last_page body) (set_albums (data body) st))),
   Fulfilled).
Proof. reflexivity. Qed.

Lemma fetchAlbums_settle_fail f s err st :
  thrown_by "Failed to fetch albums" s = Some err →
  fetchAlbums_settle f s st =
  (set_loading false (set_error (Some (message_of err "An error occurred")) st),
   Fulfilled).
Proof.
  destruct s as [e|[[] [e|body]]]; simpl; intros [= <-]; reflexivity.
Qed.

Lemma voteAlbum_settle_ok albumId body st :
  voteAlbum_settle albumId (ok_with body) st =
  (set_voteLoading (voteLoading st ∖ {[albumId]})
     (set_cache ∅ (apply_votes albumId (response_votes body) st)),
   Fulfilled).
Proof.
  unfold voteAlbum_settle, settle_promise, try_catch_finally, ok_with. simpl.
  unfold mbind, Exec_bind, modify, await. simpl.
  f_equal. f_equal. f_equal.
  unfold apply_votes. case_decide; [|done]. by case_match.
Qed.

Lemma voteAlbum_settle_fail albumId s err st :
  thrown_by "Failed to vote" s = Some err →
  voteAlbum_settle albumId s st =
  (set_voteLoading (voteLoading st ∖ {[albumId]})
     (set_error (Some (message_of err "Failed to vote")) st),
   Rejected (StringValue (message_of err "Failed to vote"))).
Proof.
  destruct s as [e|[[] [e|body]]]; simpl; intros [= <-]; reflexivity.
Qed.

Lemma deleteAlbum_settle_ok {A} albumId (s : Settlement A) st :
  thrown_by_status "Failed to delete album" s = None →
  deleteAlbum_settle albumId s st =
  (set_cache ∅ (set_albums (filter (λ a, id a ≠ albumId) (albums st)) st),
   Fulfilled).
Proof.
  destruct s as [e|[[] j]]; simpl; intros [=]; reflexivity.
Qed.


(** The calls of the two mutations, by the gate and by what the reading of
    the XSRF cookie does. *)
Lemma voteAlbum_call_member albumId voteType xsrf st :
  albumId ∈ voteLoading st →
  voteAlbum_call albumId voteType xsrf st = (st, Returned).
Proof. intros Hin. unfold voteAlbum_call. by rewrite decide_True. Qed.

Lemma voteAlbum_call_token albumId voteType token st :
  albumId ∉ voteLoading st →
  voteAlbum_call albumId voteType (inr token) st
  = (set_error None (set_voteLoading ({[albumId]} ∪ voteLoading st) st),
     Awaiting (CastVote albumId voteType)).
Proof. intros Hnin. unfold voteAlbum_call. by rewrite decide_False. Qed.

Lemma voteAlbum_call_throws albumId voteType err st :
  albumId ∉ voteLoading st →
  voteAlbum_call albumId voteType (inl err) st
  = (set_error (Some (message_of err "Failed to vote")) st,
     Threw (StringValue (message_of err "Failed to vote"))).
Proof.
  intros Hnin. unfold voteAlbum_call. rewrite decide_False by done.
  cbv zeta. rewrite (voteAlbum_settle_fail _ _ err) by done.
  unfold ended. cbn [fst snd]. f_equal.
  assert (({[albumId]} ∪ voteLoading st) ∖ {[albumId]} = voteLoading st) as Hvl.
  { apply set_eq. intros x.
    rewrite elem_of_difference, elem_of_union, !elem_of_singleton.
    split; [by intros [[->|?] ?]|]. intros Hx. split; [by right|]. by intros ->. }
  destruct st. unfold set_voteLoading, set_error. simpl in *. by rewrite Hvl.
Qed.

Lemma deleteAlbum_call_token albumId token st :
  deleteAlbum_call albumId (inr token) st = (st, Awaiting (DeleteAlbum albumId)).
Proof. reflexivity. Qed.

Lemma deleteAlbum_call_throws albumId err st :
  deleteAlbum_call albumId (inl err) st
  = (set_error (Some (message_of err "Failed to delete album")) st,
     Threw (StringValue (message_of err "Failed to delete album"))).
Proof. reflexivity. Qed.

(** ** The read cache *)

(** C3. For filters with an integer page of at least 1: a page put under a
    filter is what a get of that filter returns; a get of any other filter
    (another page or another search text, compared exactly) is not affected by
    the put, and is absent when nothing else was put; the key of
    [getCacheKey] is the same for two filters only when the filters are the
    same; and the put of the store, at the end of a successful [fetchAlbums],
    is this put. *)
Theorem cache_get_put (f f' : AlbumFilters) (p : PaginatedAlbumResponse)
    (c : gmap string PaginatedAlbumResponse) (st : Store) :
  1 ≤ page f → 1 ≤ page f' →
  cache_get f (cache_put f p c) = Some p
  ∧ (f' ≠ f → cache_get f' (cache_put f p c) = cache_get f' c)
  ∧ (f' ≠ f → cache_get f' (cache_put f p ∅) = None)
  ∧ (getCacheKey f = getCacheKey f' ↔ f = f')
  ∧ cache (fetchAlbums_settle f (ok_with p) st).1 = cache_put f p (cache st).
Proof.
  intros _ _. unfold cache_get, cache_put.
  assert (f' ≠ f → getCacheKey f ≠ getCacheKey f') as Hne.
  { intros Hff Hk. apply Hff. symmetry. by apply getCacheKey_inj. }
  split_and!.
  - apply lookup_insert_eq.
  - intros Hff. apply lookup_insert_ne. by apply Hne.
  - intros Hff. rewrite lookup_insert_ne by (by apply Hne). apply lookup_empty.
  - split; [apply getCacheKey_inj | by intros ->].
  - reflexivity.
Qed.

(** ** The vote gate *)

Lemma filter_length_delete {A} (P : A → Prop) `{!∀ x, Decision (P x)}
    (l : list A) (n : nat) (x : A) :
  l !! n = Some x →
  length (filter P l)
  = (length (filter P (delete n l)) + (if decide (P x) then 1 else 0))%nat.
Proof.
  intros Hn. rewrite <-(take_drop_middle l n x Hn) at 1.
  rewrite delete_take_drop, !filter_app, filter_cons, !length_app.
  case_decide; simpl; lia.
Qed.

Lemma outstanding_votes_app albumId st st' l req :
  outstanding_votes albumId {| store := st'; outstanding := l ++ [req] |}
  = (outstanding_votes albumId {| store := st; outstanding := l |}
     + (if is_vote_for albumId req then 1 else 0))%nat.
Proof.
  unfold outstanding_votes. simpl.
  rewrite filter_app, length_app, filter_cons, filter_nil.
  destruct (is_vote_for albumId req); case_decide; simpl; done || lia.
Qed.

Lemma outstanding_votes_delete albumId st st' l n req :
  l !! n = Some req →
  outstanding_votes albumId {| store := st; outstanding := l |}
  = (outstanding_votes albumId {| store := st'; outstanding := delete n l |}
     + (if is_vote_for albumId req then 1 else 0))%nat.
Proof.
  intros Hn. unfold outstanding_votes. simpl.
  rewrite (filter_length_delete _ l n req Hn).
  destruct (is_vote_for albumId req); case_decide; done || lia.
Qed.

Lemma fetchAlbums_call_voteLoading f st :
  voteLoading (fetchAlbums_call f st).1 = voteLoading st
  ∧ ∀ albumId req, (fetchAlbums_call f st).2 = Awaiting req →
      is_vote_for albumId req = false.
Proof.
  unfold fetchAlbums_call. destruct (cache_get f (cache st)); simpl.
  - split; [done | discriminate].
  - split; [done|]. by intros albumId req [= <-].
Qed.

Lemma fetchAlbums_settle_voteLoading f s st :
  voteLoading (fetchAlbums_settle f s st).1 = voteLoading st.
Proof. by destruct s as [e|[[] [e|body]]]. Qed.

Lemma deleteAlbum_settle_voteLoading {A} albumId (s : Settlement A) st :
  voteLoading (deleteAlbum_settle albumId s st).1 = voteLoading st.
Proof. by destruct s as [e|[[] j]]. Qed.

Lemma apply_votes_voteLoading albumId vs st :
  voteLoading (apply_votes albumId vs st) = voteLoading st.
Proof. unfold apply_votes. case_decide; [|done]. by case_match. Qed.

Lemma voteAlbum_settle_voteLoading albumId s st :
  voteLoading (voteAlbum_settle albumId s st).1 = voteLoading st ∖ {[albumId]}.
Proof.
  destruct (thrown_by "Failed to vote" s) as [err|] eqn:Hs.
  - by rewrite (voteAlbum_settle_fail _ _ _ _ Hs).
  - apply thrown_by_None in Hs as [body ->].
    by rewrite voteAlbum_settle_ok.
Qed.

Lemma is_vote_for_CastVote albumId i v :
  is_vote_for albumId (CastVote i v) = bool_decide (i = albumId).
Proof. reflexivity. Qed.

(** Case analysis on the membership tests of the invariant. *)
Ltac gate_cases :=
  repeat case_decide; done || lia || (set_unfold; intuition congruence).

Lemma vote_gate_inv_step w e w' :
  vote_gate_inv w → step e w = Some w' → vote_gate_inv w'.
Proof.
  intros Hinv Hstep albumId. specialize (Hinv albumId).
  destruct w as [st l]. simpl in *.
  destruct e as [f|i v x|i x|q| |p|n s|n s|n s]; simpl in Hstep.
  - injection Hstep as <-.
    destruct (fetchAlbums_call_voteLoading f st) as [Hvl Hreq].
    unfold after_call.
    destruct ((fetchAlbums_call f st).2) as [|req|reason] eqn:Hsus;
      simpl; rewrite Hvl.
    + exact Hinv.
    + rewrite (outstanding_votes_app _ st), Hinv, (Hreq albumId req eq_refl). lia.
    + exact Hinv.
  - injection Hstep as <-. unfold after_call.
    destruct (decide (i ∈ voteLoading st)) as [Hi|Hi].
    { rewrite (voteAlbum_call_member _ _ _ _ Hi). exact Hinv. }
    destruct x as [err|token].
    { rewrite (voteAlbum_call_throws _ _ _ _ Hi). exact Hinv. }
    rewrite (voteAlbum_call_token _ _ _ _ Hi). simpl.
    rewrite (outstanding_votes_app _ st), Hinv, is_vote_for_CastVote.
    destruct (decide (i = albumId)) as [->|Hne].
    + rewrite bool_decide_eq_true_2 by done.
      gate_cases.
    + rewrite bool_decide_eq_false_2 by done.
      gate_cases.
  - injection Hstep as <-. unfold after_call.
    destruct x as [err|token].
    { rewrite deleteAlbum_call_throws. exact Hinv. }
    rewrite deleteAlbum_call_token. simpl.
    rewrite (outstanding_votes_app _ st), Hinv. simpl. lia.
  - injection Hstep as <-. exact Hinv.
  - injection Hstep as <-. exact Hinv.
  - injection Hstep as <-. exact Hinv.
  - destruct (l !! n) as [[p q|i v|i]|] eqn:Hn; try discriminate.
    injection Hstep as <-. unfold after_settle. simpl.
    rewrite fetchAlbums_settle_voteLoading, <-Hinv.
    rewrite (outstanding_votes_delete albumId st
               (fetchAlbums_settle {| page := p; search := q |} s st).1 l n _ Hn).
    simpl. lia.
  - destruct (l !! n) as [[p q|i v|i]|] eqn:Hn; try discriminate.
    injection Hstep as <-. unfold after_settle. simpl.
    rewrite voteAlbum_settle_voteLoading.
    rewrite (outstanding_votes_delete albumId st
               (voteAlbum_settle i s st).1 l n _ Hn) in Hinv.
    rewrite is_vote_for_CastVote in Hinv.
    destruct (decide (i = albumId)) as [->|Hne].
    + rewrite bool_decide_eq_true_2 in Hinv by done.
      gate_cases.
    + rewrite bool_decide_eq_false_2 in Hinv by done.
      rewrite Nat.add_0_r in Hinv. rewrite Hinv.
      gate_cases.
  - destruct (l !! n) as [[p q|i v|i]|] eqn:Hn; try discriminate.
    injection Hstep as <-. unfold after_settle. simpl.
    rewrite deleteAlbum_settle_voteLoading, <-Hinv.
    rewrite (outstanding_votes_delete albumId st
               (deleteAlbum_settle i s st).1 l n _ Hn).
    simpl. lia.
Qed.

Lemma reachable_vote_gate_inv w : reachable w → vote_gate_inv w.
Proof.
  induction 1 as [|w e w' _ IH Hstep].
  - intros albumId. unfold outstanding_votes. simpl.
    rewrite decide_False by set_solver. done.
  - by eapply vote_gate_inv_step.
Qed.

(** C1. In every world the store can reach, at most one vote request per
    album id is outstanding, and an id is in [voteLoading] exactly while its
    one vote request is outstanding.  A call of [voteAlbum] for an id in the
    set returns at once, whatever the XSRF cookie: no request is issued, the
    store is left as it is (collection, cache and error included) and the
    promise is not rejected.  A call for an id outside the set whose request
    can be built issues the request and puts the id in; the settlement of that
    request, whatever it is, takes the id out.  A call for an id outside the
    set whose XSRF cookie does not decode issues no request and leaves the id
    outside the set: the message is recorded and the promise is rejected. *)
Theorem voteAlbum_gate (w : World) :
  reachable w →
  (∀ albumId, (outstanding_votes albumId w ≤ 1)%nat)
  ∧ (∀ albumId,
       albumId ∈ voteLoading (store w) ↔ outstanding_votes albumId w = 1%nat)
  ∧ (∀ st albumId voteType xsrf,
       albumId ∈ voteLoading st →
       voteAlbum_call albumId voteType xsrf st = (st, Returned))
  ∧ (∀ albumId voteType xsrf,
       albumId ∈ voteLoading (store w) →
       step (call_voteAlbum albumId voteType xsrf) w = Some w)
  ∧ (∀ albumId voteType token,
       albumId ∉ voteLoading (store w) →
       ∃ w', step (call_voteAlbum albumId voteType (inr token)) w = Some w'
             ∧ outstanding w' = outstanding w ++ [CastVote albumId voteType]
             ∧ albumId ∈ voteLoading (store w')
             ∧ outstanding_votes albumId w' = 1%nat)
  ∧ (∀ albumId voteType err,
       albumId ∉ voteLoading (store w) →
       let msg := message_of err "Failed to vote" in
       (voteAlbum_call albumId voteType (inl err) (store w)).2
       = Threw (StringValue msg)
       ∧ ∃ w', step (call_voteAlbum albumId voteType (inl err)) w = Some w'
               ∧ outstanding w' = outstanding w
               ∧ voteLoading (store w') = voteLoading (store w)
               ∧ outstanding_votes albumId w' = 0%nat
               ∧ error (store w') = Some msg
               ∧ albums (store w') = albums (store w)
               ∧ cache (store w') = cache (store w))
  ∧ (∀ n albumId voteType s,
       outstanding w !! n = Some (CastVote albumId voteType) →
       ∃ w', step (settle_voteAlbum n s) w = Some w'
             ∧ (albumId ∉ voteLoading (store w'))
             ∧ outstanding_votes albumId w' = 0%nat).
Proof.
  intros Hw. pose proof (reachable_vote_gate_inv w Hw) as Hinv.
  split_and!.
  - intros albumId. rewrite (Hinv albumId). case_decide; lia.
  - intros albumId. rewrite (Hinv albumId). case_decide; split; done || lia.
  - intros st albumId voteType xsrf Hin. by apply voteAlbum_call_member.
  - intros albumId voteType xsrf Hin. simpl.
    rewrite (voteAlbum_call_member _ _ _ _ Hin). by destruct w.
  - intros albumId voteType token Hnin.
    destruct (step (call_voteAlbum albumId voteType (inr token)) w)
      as [w'|] eqn:Hstep; [|discriminate].
    exists w'. split; [done|].
    pose proof (reachable_vote_gate_inv w' (reachable_step _ _ _ Hw Hstep) albumId)
      as Hinv'.
    simpl in Hstep. rewrite (voteAlbum_call_token _ _ _ _ Hnin) in Hstep.
    injection Hstep as <-.
    unfold after_call in *. simpl in *.
    assert (albumId ∈ {[albumId]} ∪ voteLoading (store w)) as Hin
      by (set_unfold; tauto).
    split_and!; [done|done|]. by rewrite decide_True in Hinv'.
  - intros albumId voteType err Hnin. cbv zeta.
    rewrite (voteAlbum_call_throws _ _ _ _ Hnin). split; [done|].
    destruct (step (call_voteAlbum albumId voteType (inl err)) w)
      as [w'|] eqn:Hstep; [|discriminate].
    exists w'. split; [done|].
    simpl in Hstep. rewrite (voteAlbum_call_throws _ _ _ _ Hnin) in Hstep.
    injection Hstep as <-.
    unfold after_call. simpl. split_and!; try done.
    specialize (Hinv albumId). rewrite decide_False in Hinv by done.
    exact Hinv.
  - intros n albumId voteType s Hn.
    destruct (step (settle_voteAlbum n s) w) as [w'|] eqn:Hstep;
      [|by simpl in Hstep; rewrite Hn in Hstep].
    exists w'. split; [done|].
    pose proof (reachable_vote_gate_inv w' (reachable_step _ _ _ Hw Hstep) albumId)
      as Hinv'.
    simpl in Hstep. rewrite Hn in Hstep. injection Hstep as <-.
    unfold after_settle in *. simpl in *.
    rewrite voteAlbum_settle_voteLoading in *.
    assert (albumId ∉ voteLoading (store w) ∖ {[albumId]}) as Hnin
      by (set_unfold; tauto).
    split; [done|]. by rewrite decide_False in Hinv'.
Qed.

(** ** Votes *)

Lemma findIndex_Some {A} (P : A → Prop) `{!∀ x, Decision (P x)} l i x :
  list_find P l = Some (i, x) →
  findIndex P l = Z.of_nat i ∧ findIndex P l ≠ -1 ∧ l !! i = Some x.
Proof.
  intros Hfind. unfold findIndex. rewrite Hfind.
  apply list_find_Some in Hfind as (Hi & _ & _).
  split_and!; [done | lia | done].
Qed.

Lemma findIndex_None {A} (P : A → Prop) `{!∀ x, Decision (P x)} l :
  list_find P l = None → findIndex P l = -1.
Proof. intros Hfind. unfold findIndex. by rewrite Hfind. Qed.

Lemma apply_votes_found albumId vs st i album :
  list_find (λ a, id a = albumId) (albums st) = Some (i, album) →
  apply_votes albumId vs st
  = set_albums (<[i := with_votes album vs]> (albums st)) st.
Proof.
  intros Hfind. unfold apply_votes.
  destruct (findIndex_Some _ _ _ _ Hfind) as (Hi & Hne & Hl).
  rewrite decide_True by done. rewrite Hi, Nat2Z.id, Hl. done.
Qed.

Lemma apply_votes_absent albumId vs st :
  albumId ∉ id <$> albums st → apply_votes albumId vs st = st.
Proof.
  intros Hnin. unfold apply_votes.
  destruct (list_find (λ a, id a = albumId) (albums st)) as [[i a]|] eqn:Hfind.
  - apply list_find_Some in Hfind as (Hi & Hid & _).
    destruct Hnin. apply list_elem_of_fmap. exists a. split; [done|].
    by eapply list_elem_of_lookup_2.
  - rewrite (findIndex_None _ _ Hfind). by rewrite decide_False by lia.
Qed.

(** C2. A successful [voteAlbum] for an id that is in the visible collection
    writes the votes of the response over the votes of the first album with
    that id: the new votes are the list the authority returned, whatever the
    old votes were; the other fields of that album and all other albums stay
    as they are; the cache is emptied, so that a get of any filter is absent;
    and the promise is fulfilled. *)
Theorem voteAlbum_success (albumId : Z) (body : VoteResponse) (st : Store) :
  albumId ∈ id <$> albums st →
  let st' := (voteAlbum_settle albumId (ok_with body) st).1 in
  (voteAlbum_settle albumId (ok_with body) st).2 = Fulfilled
  ∧ (∃ i old new,
       albums st !! i = Some old ∧ id old = albumId
       ∧ (∀ j a, albums st !! j = Some a → (j < i)%nat → id a ≠ albumId)
       ∧ albums st' = <[i := new]> (albums st)
       ∧ albums st' !! i = Some new
       ∧ votes new = response_votes body
       ∧ id new = id old ∧ song_name new = song_name old
       ∧ artist_name new = artist_name old ∧ album_cover new = album_cover old
       ∧ created_at new = created_at old ∧ updated_at new = updated_at old
       ∧ (∀ j, j ≠ i → albums st' !! j = albums st !! j)
       ∧ length (albums st') = length (albums st))
  ∧ cache st' = ∅
  ∧ (∀ f, cache_get f (cache st') = None).
Proof.
  intros Hin. rewrite voteAlbum_settle_ok. simpl.
  apply list_elem_of_fmap in Hin as (a & Ha & Hel).
  destruct (list_find_elem_of (λ a, id a = albumId) (albums st) a Hel)
    as [[i old] Hfind]; [done|].
  rewrite (apply_votes_found _ _ _ _ _ Hfind). simpl.
  apply list_find_Some in Hfind as (Hi & Hid & Hfirst).
  split_and!; [done| |done|intros f; apply lookup_empty].
  exists i, old, (with_votes old (response_votes body)).
  split_and!; try done.
  - apply list_lookup_insert_eq. by eapply lookup_lt_Some.
  - intros j Hj. by apply list_lookup_insert_ne.
  - apply length_insert.
Qed.

(** C10. A successful [voteAlbum] for an id that is not in the visible
    collection fulfils its promise: the collection is left as it is, the
    error is not touched, the cache is emptied all the same and the id is
    taken out of [voteLoading]. *)
Theorem voteAlbum_success_absent (albumId : Z) (body : VoteResponse) (st : Store) :
  albumId ∉ id <$> albums st →
  let st' := (voteAlbum_settle albumId (ok_with body) st).1 in
  (voteAlbum_settle albumId (ok_with body) st).2 = Fulfilled
  ∧ albums st' = albums st
  ∧ error st' = error st
  ∧ cache st' = ∅
  ∧ (∀ f, cache_get f (cache st') = None)
  ∧ voteLoading st' = voteLoading st ∖ {[albumId]}
  ∧ (albumId ∉ voteLoading st').
Proof.
  intros Hnin. rewrite voteAlbum_settle_ok. simpl.
  rewrite (apply_votes_absent _ _ _ Hnin).
  assert (albumId ∉ voteLoading st ∖ {[albumId]}) as Hout by (set_unfold; tauto).
  split_and!; done || (intros f; apply lookup_empty).
Qed.

(** C6. When the request of [voteAlbum] fails (the fetch rejects, the response
    is not ok, or its body cannot be read), the error of the store is set to
    the message of the failure, the promise is rejected with that same message
    after it is recorded, the collection (hence the votes of the album) and
    the cache are left as they are.  The message is the literal of the code
    for a response that is not ok and for a thrown value that is no [Error];
    otherwise it is the message of the [Error], and it is empty exactly when
    that message is.  On success and on failure alike the id is taken out of
    [voteLoading], so that the next [voteAlbum] for it is not turned away by
    the gate and issues a request as soon as the request can be built. *)
Theorem voteAlbum_failure (albumId : Z) (s : Settlement VoteResponse)
    (err : Thrown) (st : Store) :
  thrown_by "Failed to vote" s = Some err →
  let st' := (voteAlbum_settle albumId s st).1 in
  let msg := message_of err "Failed to vote" in
  error st' = Some msg
  ∧ (voteAlbum_settle albumId s st).2 = Rejected (StringValue msg)
  ∧ (msg = "" ↔ err = ErrorObject "")
  ∧ (∀ response, s = Resolves response → ok response = false →
       msg = "Failed to vote")
  ∧ albums st' = albums st
  ∧ cache st' = cache st
  ∧ (albumId ∉ voteLoading st')
  ∧ (∀ voteType token,
       (voteAlbum_call albumId voteType (inr token) st').2
       = Awaiting (CastVote albumId voteType))
  ∧ (∀ voteType xsrf,
       (voteAlbum_call albumId voteType xsrf st').2 ≠ Returned)
  ∧ (∀ s0 : Settlement VoteResponse,
       albumId ∉ voteLoading (voteAlbum_settle albumId s0 st).1).
Proof.
  intros Hs. rewrite (voteAlbum_settle_fail _ _ _ _ Hs). simpl.
  assert (albumId ∉ voteLoading st ∖ {[albumId]}) as Hnin by (set_unfold; tauto).
  split_and!; try done.
  - destruct err as [m| |]; simpl; split; try done.
    + by intros ->.
    + by intros [= ->].
  - intros response -> Hok. simpl in Hs. rewrite Hok in Hs.
    by injection Hs as <-.
  - intros voteType token. by rewrite voteAlbum_call_token.
  - intros voteType [e|token].
    + by rewrite voteAlbum_call_throws.
    + by rewrite voteAlbum_call_token.
  - intros s0. by rewrite voteAlbum_settle_voteLoading.
Qed.

(** ** Queries *)

Lemma fetchAlbums_call_hit f cached st :
  cache_get f (cache st) = Some cached →
  fetchAlbums_call f st
  = (set_totalPages (last_page cached) (set_albums (data cached) st), Returned).
Proof. intros Hget. unfold fetchAlbums_call. by rewrite Hget. Qed.

Lemma fetchAlbums_call_miss f st :
  cache_get f (cache st) = None →
  fetchAlbums_call f st
  = (set_error None (set_loading true st),
     Awaiting (ListAlbums (page f) (search f))).
Proof. intros Hget. unfold fetchAlbums_call. by rewrite Hget. Qed.

(** Read events never settle a request; as long as they issue none, the
    cache and the flags stay as they are. *)
Lemma step_read_event e w w' :
  is_read_event e → step e w = Some w' →
  (length (outstanding w) ≤ length (outstanding w'))%nat
  ∧ (length (outstanding w') = length (outstanding w) →
       outstanding w' = outstanding w
       ∧ cache (store w') = cache (store w)
       ∧ loading (store w') = loading (store w)
       ∧ error (store w') = error (store w)).
Proof.
  destruct e as [f|i v x|i x|q| |p|n s|n s|n s]; simpl; try done;
    intros _ [= <-]; simpl; [|by split; [lia|]..].
  unfold after_call, fetchAlbums_call.
  destruct (cache_get f (cache (store w))) as [cached|]; simpl.
  - split; [lia | done].
  - rewrite length_app. simpl. split; lia.
Qed.

Lemma run_read_events es w w' :
  Forall is_read_event es → run es w = Some w' →
  (length (outstanding w) ≤ length (outstanding w'))%nat
  ∧ (length (outstanding w') = length (outstanding w) →
       outstanding w' = outstanding w
       ∧ cache (store w') = cache (store w)
       ∧ loading (store w') = loading (store w)
       ∧ error (store w') = error (store w)).
Proof.
  intros Hes. revert w. induction Hes as [|e es He _ IH]; intros w; simpl.
  - intros [= <-]. split; [lia | done].
  - destruct (step e w) as [w1|] eqn:Hstep; [|done]. intros Hrun.
    destruct (step_read_event e w w1 He Hstep) as [Hle1 Hsame1].
    destruct (IH w1 Hrun) as [Hle Hsame].
    split; [lia|]. intros Hlen.
    destruct Hsame as (-> & -> & -> & ->); [lia|].
    apply Hsame1. lia.
Qed.

Lemma fetchAlbums_settle_cache g s st :
  cache (fetchAlbums_settle g s st).1 = cache st
  ∨ ∃ body, cache (fetchAlbums_settle g s st).1 = cache_put g body (cache st).
Proof.
  destruct (thrown_by "Failed to fetch albums" s) as [err|] eqn:Hs.
  - left. by rewrite (fetchAlbums_settle_fail _ _ _ _ Hs).
  - right. apply thrown_by_None in Hs as [body ->]. by exists body.
Qed.

(** Query events keep a cached page in place, as long as no request for the
    same filters is outstanding. *)
Lemma step_query_event f body e w w' :
  is_query_event e → step e w = Some w' →
  cache_get f (cache (store w)) = Some body →
  ListAlbums (page f) (search f) ∉ outstanding w →
  cache_get f (cache (store w')) = Some body
  ∧ ListAlbums (page f) (search f) ∉ outstanding w'.
Proof.
  intros He Hstep Hget Hout.
  destruct e as [g|i v x|i x|q| |p|n s|n s|n s]; simpl in He, Hstep; try done.
  - injection Hstep as <-. unfold after_call, fetchAlbums_call.
    destruct (cache_get g (cache (store w))) as [cached|] eqn:Hg; simpl.
    + done.
    + split; [done|]. rewrite elem_of_app, list_elem_of_singleton.
      intros [Hin|[= Hp Hq]]; [done|].
      destruct f as [pf qf], g as [pg qg]. simpl in *. subst. congruence.
  - by injection Hstep as <-.
  - by injection Hstep as <-.
  - destruct (outstanding w !! n) as [[p q|i v|i]|] eqn:Hn; try discriminate.
    injection Hstep as <-. unfold after_settle. simpl.
    split; [|by intros Hin%list_elem_of_delete_inv].
    destruct (fetchAlbums_settle_cache {| page := p; search := q |} s (store w))
      as [->|[body' ->]]; [done|].
    unfold cache_get, cache_put in *. rewrite lookup_insert_ne; [done|].
    intros Hk%getCacheKey_inj. apply Hout. rewrite <-Hk. simpl.
    by eapply list_elem_of_lookup_2.
Qed.

Lemma run_query_events f body es w w' :
  Forall is_query_event es → run es w = Some w' →
  cache_get f (cache (store w)) = Some body →
  ListAlbums (page f) (search f) ∉ outstanding w →
  cache_get f (cache (store w')) = Some body
  ∧ ListAlbums (page f) (search f) ∉ outstanding w'.
Proof.
  intros Hes. revert w. induction Hes as [|e es He _ IH]; intros w; simpl.
  - by intros [= <-].
  - destruct (step e w) as [w1|] eqn:Hstep; [|done]. intros Hrun Hget Hout.
    destruct (step_query_event f body e w w1 He Hstep Hget Hout).
    by apply (IH w1).
Qed.

(** Query events never take a cached page away: they only add pages, or
    put a newer page in the place of an old one. *)
Lemma step_query_event_cached f e w w' :
  is_query_event e → step e w = Some w' →
  is_Some (cache_get f (cache (store w))) →
  is_Some (cache_get f (cache (store w'))).
Proof.
  intros He Hstep Hget.
  destruct e as [g|i v x|i x|q| |p|n s|n s|n s]; simpl in He, Hstep; try done.
  - injection Hstep as <-. unfold after_call, fetchAlbums_call.
    by destruct (cache_get g (cache (store w))).
  - by injection Hstep as <-.
  - by injection Hstep as <-.
  - destruct (outstanding w !! n) as [[p q|i v|i]|] eqn:Hn; try discriminate.
    injection Hstep as <-. unfold after_settle. simpl.
    destruct (fetchAlbums_settle_cache {| page := p; search := q |} s (store w))
      as [->|[body' ->]]; [done|].
    unfold cache_get, cache_put in *.
    destruct (decide (getCacheKey {| page := p; search := q |} = getCacheKey f))
      as [->|Hne].
    + rewrite lookup_insert_eq. by eexists.
    + by rewrite lookup_insert_ne.
Qed.

Lemma run_query_events_cached f es w w' :
  Forall is_query_event es → run es w = Some w' →
  is_Some (cache_get f (cache (store w))) →
  is_Some (cache_get f (cache (store w'))).
Proof.
  intros Hes. revert w. induction Hes as [|e es He _ IH]; intros w; simpl.
  - by intros [= <-].
  - destruct (step e w) as [w1|] eqn:Hstep; [|done]. intros Hrun Hget.
    apply (IH w1 Hrun). by eapply step_query_event_cached.
Qed.

(** C4, as the code has it.  A first [fetchAlbums] goes to the network and
    succeeds with a page; then come any queries, writes of the search text and
    of the page number and settlements of queries, but no mutation and no
    [clearCache]; then [fetchAlbums] is called with the same filters.  This
    second call finds a page in the cache, issues no request and returns at
    once; the collection and the page count are those of the cached page.
    The cached page is the page of the first call when no other request for
    the same filters was outstanding as the first response arrived (a second
    request for them, made before the first response, puts its own page in
    the cache when it succeeds).  The loading flag and the error are left as
    they are, so that the session is in the phase it was in before the call.
    It is ready when the response of the first call came right after the call
    and nothing but read events that issued no request came in between.
    ([st0] is the store when the first call is made, [st] the store when its
    response arrives, [pending] the other requests outstanding then.) *)
Theorem fetchAlbums_twice (f : AlbumFilters) (body : PaginatedAlbumResponse)
    (st0 st : Store) (pending : list Request) (between : list Event) (w : World) :
  cache_get f (cache st0) = None →
  Forall is_query_event between →
  run between
    {| store := (fetchAlbums_settle f (ok_with body) st).1;
       outstanding := pending |} = Some w →
  let st3 := (fetchAlbums_call f (store w)).1 in
  (fetchAlbums_call f st0).2 = Awaiting (ListAlbums (page f) (search f))
  ∧ (fetchAlbums_settle f (ok_with body) st).2 = Fulfilled
  ∧ (fetchAlbums_call f (store w)).2 = Returned
  ∧ step (call_fetchAlbums f) w
    = Some {| store := st3; outstanding := outstanding w |}
  ∧ (∃ cached,
       cache_get f (cache (store w)) = Some cached
       ∧ albums st3 = data cached ∧ totalPages st3 = last_page cached)
  ∧ (ListAlbums (page f) (search f) ∉ pending →
     albums st3 = data body ∧ totalPages st3 = last_page body)
  ∧ loading st3 = loading (store w) ∧ error st3 = error (store w)
  ∧ phase st3 = phase (store w)
  ∧ (st = (fetchAlbums_call f st0).1 →
     Forall is_read_event between → outstanding w = pending →
     phase st3 = phase_ready).
Proof.
  intros Hmiss Hqueries Hrun. cbv zeta.
  assert (cache_get f (cache (fetchAlbums_settle f (ok_with body) st).1)
          = Some body) as Hput.
  { rewrite fetchAlbums_settle_ok. apply lookup_insert_eq. }
  destruct (run_query_events_cached f between _ w Hqueries Hrun) as [cached Hhit].
  { cbn [store]. rewrite Hput. by eexists. }
  assert (ListAlbums (page f) (search f) ∉ pending → cached = body) as Hsame.
  { intros Hpending.
    destruct (run_query_events f body between _ w Hqueries Hrun) as [Hget _];
      [exact Hput | exact Hpending |]. congruence. }
  rewrite (fetchAlbums_call_hit f cached (store w) Hhit).
  split_and!; try done.
  - by rewrite (fetchAlbums_call_miss _ _ Hmiss).
  - simpl. unfold after_call. by rewrite (fetchAlbums_call_hit f cached).
  - by exists cached.
  - intros Hpending. by rewrite (Hsame Hpending).
  - intros -> Hreads Hout.
    destruct (run_read_events _ _ _ Hreads Hrun) as [_ Hkeep].
    destruct Hkeep as (_ & _ & Hloading & Herror); [by rewrite Hout|].
    revert Hloading Herror.
    rewrite (fetchAlbums_call_miss _ _ Hmiss), fetchAlbums_settle_ok. simpl.
    intros Hloading Herror. unfold phase. simpl. by rewrite Hloading, Herror.
Qed.

(** C5. When the request of [fetchAlbums] fails (the fetch rejects, the
    response is not ok, or its body cannot be read), the error of the store is
    set to a message and the session is errored (not loading, an error
    recorded); the collection, the page count and the cache are what they
    were, both against the store at the settlement and against the store
    before the call; and the promise is fulfilled, not rejected. *)
Theorem fetchAlbums_failure (f : AlbumFilters)
    (s : Settlement PaginatedAlbumResponse) (err : Thrown) (st0 st : Store) :
  thrown_by "Failed to fetch albums" s = Some err →
  cache_get f (cache st0) = None →
  let st' := (fetchAlbums_settle f s st).1 in
  let st1 := (fetchAlbums_call f st0).1 in
  let st2 := (fetchAlbums_settle f s st1).1 in
  (fetchAlbums_settle f s st).2 = Fulfilled
  ∧ error st' = Some (message_of err "An error occurred")
  ∧ loading st' = false
  ∧ phase st' = phase_errored
  ∧ albums st' = albums st ∧ totalPages st' = totalPages st
  ∧ cache st' = cache st
  ∧ (fetchAlbums_call f st0).2 = Awaiting (ListAlbums (page f) (search f))
  ∧ phase st1 = phase_loading
  ∧ albums st2 = albums st0 ∧ totalPages st2 = totalPages st0
  ∧ cache st2 = cache st0
  ∧ phase st2 = phase_errored.
Proof.
  intros Hs Hmiss. cbv zeta.
  rewrite (fetchAlbums_call_miss _ _ Hmiss). cbn [fst snd].
  rewrite !(fetchAlbums_settle_fail _ _ _ _ Hs).
  split_and!; done.
Qed.

(** ** Deletion *)


(** ** Concrete runs *)

Lemma ordinal_collation_antisym s t :
  Z.sgn (ordinal_collation s t) = - Z.sgn (ordinal_collation t s).
Proof.
  unfold ordinal_collation. rewrite (String.compare_antisym s t).
  by destruct (String.compare t s).
Qed.

Lemma ordinal_collation_le s t : ordinal_collation s t ≤ 0 ↔ String.le s t.
Proof.
  unfold ordinal_collation, String.le, String.leb.
  destruct (String.compare s t); simpl; split; done || lia.
Qed.

Lemma ordinal_collation_trans s t u :
  ordinal_collation s t ≤ 0 → ordinal_collation t u ≤ 0 →
  ordinal_collation s u ≤ 0.
Proof. rewrite !ordinal_collation_le. intros ??. by etrans. Qed.

Example calculateVoteCounts_demo :
  calculateVoteCounts [demo_vote 4 12 up; demo_vote 5 13 up; demo_vote 6 14 down]
  = {| count_up := 2; count_down := 1 |}.
Proof. reflexivity. Qed.

Example getCacheKey_demo :
  getCacheKey {| page := 12; search := "-a b" |} = "12--a b".
Proof. vm_compute. reflexivity. Qed.

Example sortedAlbums_demo :
  id <$> sortedAlbums ordinal_collation demo_store = [3; 2; 1].
Proof. vm_compute. reflexivity. Qed.

(** The vote scenario of the specification: an album with one up vote, a
    down vote is cast, the authority answers with both votes. *)
Example voteAlbum_demo :
  let st := set_cache {[ getCacheKey demo_filters := demo_page demo_albums ]}
              (set_albums [demo_album 1 "E1" [demo_vote 1 1 up]] init_store) in
  let body := {| success := true;
                 response_votes := [demo_vote 1 1 up; demo_vote 2 2 down] |} in
  let st' := (voteAlbum_settle 1 (ok_with body)
                (voteAlbum_call 1 down (inr "token") st).1).1 in
  (calculateVoteCounts <$> (votes <$> albums st'))
    = [{| count_up := 1; count_down := 1 |}]
  ∧ View.getTotalVotes <$> albums st' = [0]
  ∧ cache st' = ∅ ∧ voteLoading st' = ∅.
Proof. vm_compute. done. Qed.

(** Two votes for one album back to back: one request. *)
Example double_vote_demo :
  outstanding <$> run [call_voteAlbum 1 up (inr "token");
                       call_voteAlbum 1 down (inr "token")] init_world
  = Some [CastVote 1 up].
Proof. vm_compute. reflexivity. Qed.

(** Query, query again: one request. *)
Example double_query_demo :
  outstanding <$> run [call_fetchAlbums demo_filters;
                       settle_fetchAlbums 0 (ok_with (demo_page demo_albums));
                       call_fetchAlbums demo_filters] init_world
  = Some [].
Proof. vm_compute. reflexivity. Qed.

(** Two queries for the same filters in flight: the page of the response
    that comes last is the one the cache serves. *)
Example duplicate_query_demo :
  (λ w, albums (store w)) <$>
    run [call_fetchAlbums demo_filters;
         call_fetchAlbums demo_filters;
         settle_fetchAlbums 0 (ok_with (demo_page demo_albums));
         settle_fetchAlbums 0 (ok_with (demo_page []));
         call_fetchAlbums demo_filters] init_world
  = Some [].
Proof. vm_compute. reflexivity. Qed.

(** A vote whose XSRF cookie does not decode: no request, the message of the
    [URIError] recorded, the gate open. *)
Example vote_bad_cookie_demo :
  (λ w, (outstanding w, error (store w), bool_decide (1 ∈ voteLoading (store w)))) <$>
    run [call_voteAlbum 1 up (inl (ErrorObject "URI malformed"))] init_world
  = Some ([], Some "URI malformed", false).
Proof. vm_compute. reflexivity. Qed.

(** Query, delete, query again: the second query goes to the network. *)
Example query_after_delete_demo :
  outstanding <$> run [call_fetchAlbums demo_filters;
                       settle_fetchAlbums 0 (ok_with (demo_page demo_albums));
                       call_deleteAlbum 1 (inr "token");
                       settle_deleteAlbum 0 (ok_with tt);
                       call_fetchAlbums demo_filters] init_world
  = Some [ListAlbums 1 ""].
Proof. vm_compute. reflexivity. Qed.

Lemma vote_pending_world_reachable : reachable vote_pending_world.
Proof.
  apply (reachable_step init_world (call_voteAlbum 1 up (inr "token")));
    [apply reachable_init | reflexivity].
Qed.

Lemma voteAlbum_gate_witness :
  reachable vote_pending_world
  ∧ outstanding_votes 1 vote_pending_world = 1%nat
  ∧ step (call_voteAlbum 1 down (inr "token")) vote_pending_world
    = Some vote_pending_world.
Proof.
  destruct (voteAlbum_gate vote_pending_world vote_pending_world_reachable)
    as (_ & Hmem & _ & Hnoop & _).
  assert (1 ∈ voteLoading (store vote_pending_world)) as Hin.
  { apply elem_of_union_l, elem_of_singleton. reflexivity. }
  split; [exact vote_pending_world_reachable|].
  split; [by apply Hmem | by apply Hnoop].
Defined.

Lemma voteAlbum_success_witness :
  1 ∈ id <$> albums demo_store
  ∧ cache (voteAlbum_settle 1
             (ok_with {| success := true; response_votes := [demo_vote 9 10 down] |})
             demo_store).1 = ∅.
Proof.
  assert (1 ∈ id <$> albums demo_store) as Hin by (simpl; left).
  split; [exact Hin|].
  apply (voteAlbum_success 1
           {| success := true; response_votes := [demo_vote 9 10 down] |}
           demo_store Hin).
Defined.

Lemma cache_get_put_witness :
  1 ≤ page demo_filters ∧ 1 ≤ page {| page := 2; search := "" |}
  ∧ cache_get demo_filters
      (cache_put demo_filters (demo_page demo_albums) ∅)
    = Some (demo_page demo_albums).
Proof.
  assert (1 ≤ page demo_filters) as H1 by (simpl; lia).
  assert (1 ≤ page {| page := 2; search := "" |}) as H2 by (simpl; lia).
  split; [exact H1|]. split; [exact H2|].
  apply (cache_get_put demo_filters {| page := 2; search := "" |}
           (demo_page demo_albums) ∅ init_store H1 H2).
Defined.

Lemma fetchAlbums_twice_witness :
  cache_get demo_filters (cache init_store) = None
  ∧ Forall is_query_event demo_between
  ∧ phase (fetchAlbums_call demo_filters (store demo_cached_world)).1
    = phase_ready.
Proof.
  assert (cache_get demo_filters (cache init_store) = None) as Hmiss
    by apply lookup_empty.
  assert (Forall is_query_event demo_between) as Hqueries
    by (repeat constructor).
  assert (Forall is_read_event demo_between) as Hreads
    by (repeat constructor).
  split; [exact Hmiss|]. split; [exact Hqueries|].
  apply (fetchAlbums_twice demo_filters (demo_page demo_albums) init_store
           (fetchAlbums_call demo_filters init_store).1 []
           demo_between demo_cached_world Hmiss Hqueries eq_refl);
    [reflexivity | exact Hreads | reflexivity].
Defined.

(** The session is not made ready by a call that the cache serves.  A first
    query succeeds; a query for the next page is issued and is still loading;
    the first query is called again.  No mutation came in between; the cache
    serves the call, and the session is still loading.  With the second query
    failed instead, the session is still errored. *)
Lemma fetchAlbums_twice_not_ready :
  (∃ w, run [call_fetchAlbums demo_filters;
             settle_fetchAlbums 0 (ok_with (demo_page demo_albums));
             call_fetchAlbums {| page := 2; search := "" |};
             call_fetchAlbums demo_filters] init_world = Some w
        ∧ outstanding w = [ListAlbums 2 ""]
        ∧ albums (store w) = demo_albums
        ∧ phase (store w) = phase_loading
        ∧ phase (store w) ≠ phase_ready)
  ∧ (∃ w, run [call_fetchAlbums demo_filters;
               settle_fetchAlbums 0 (ok_with (demo_page demo_albums));
               call_fetchAlbums {| page := 2; search := "" |};
               settle_fetchAlbums 0 demo_unauthorized;
               call_fetchAlbums demo_filters] init_world = Some w
          ∧ outstanding w = []
          ∧ albums (store w) = demo_albums
          ∧ error (store w) = Some "Failed to fetch albums"
          ∧ phase (store w) = phase_errored
          ∧ phase (store w) ≠ phase_ready).
Proof.
  split; eexists; (split; [vm_compute; reflexivity|]); vm_compute;
    split_and!; done.
Qed.

Lemma fetchAlbums_failure_witness :
  thrown_by "Failed to fetch albums" demo_unauthorized
  = Some (ErrorObject "Failed to fetch albums")
  ∧ cache_get demo_filters (cache init_store) = None
  ∧ error (fetchAlbums_settle demo_filters demo_unauthorized demo_store).1
    = Some "Failed to fetch albums".
Proof.
  assert (cache_get demo_filters (cache init_store) = None) as Hmiss
    by apply lookup_empty.
  split; [reflexivity|]. split; [exact Hmiss|].
  apply (fetchAlbums_failure demo_filters demo_unauthorized
           (ErrorObject "Failed to fetch albums") init_store demo_store
           eq_refl Hmiss).
Defined.

Lemma voteAlbum_failure_witness :
  thrown_by "Failed to vote" demo_offline
  = Some (ErrorObject "NetworkError when attempting to fetch resource.")
  ∧ error (voteAlbum_settle 1 demo_offline
             (voteAlbum_call 1 up (inr "token") demo_store).1).1
    = Some "NetworkError when attempting to fetch resource.".
Proof.
  split; [reflexivity|].
  apply (voteAlbum_failure 1 demo_offline
           (ErrorObject "NetworkError when attempting to fetch resource.")
           (voteAlbum_call 1 up (inr "token") demo_store).1 eq_refl).
Defined.

(** The message of a failed vote can be empty.  A page is shown, a vote for
    its first album is cast, and the fetch rejects with an [Error] whose
    message is empty: the failure is recorded and the promise rejected, the
    votes are untouched and the id has left [voteLoading], but the error of
    the store is the empty string, which the view does not show. *)
Lemma voteAlbum_failure_empty_message :
  thrown_by "Failed to vote" (Rejects (ErrorObject "") : Settlement VoteResponse)
  = Some (ErrorObject "")
  ∧ ∃ w, run [call_fetchAlbums demo_filters;
              settle_fetchAlbums 0 (ok_with (demo_page demo_albums));
              call_voteAlbum 1 up (inr "token");
              settle_voteAlbum 0 (Rejects (ErrorObject ""))] init_world = Some w
         ∧ outstanding w = []
         ∧ albums (store w) = demo_albums
         ∧ voteLoading (store w) = ∅
         ∧ error (store w) = Some ""
         ∧ (voteAlbum_settle 1 (Rejects (ErrorObject ""))
              (voteAlbum_call 1 up (inr "token") demo_store).1).2
           = Rejected (StringValue "").
Proof.
  split; [reflexivity|]. eexists. split; [vm_compute; reflexivity|].
  vm_compute. split_and!; done.
Qed.

Lemma voteAlbum_success_absent_witness :
  (7 ∉ id <$> albums demo_store)
  ∧ albums (voteAlbum_settle 7
              (ok_with {| success := true; response_votes := [] |})
              demo_store).1 = albums demo_store.
Proof.
  assert (7 ∉ id <$> albums demo_store) as Hnin.
  { simpl. rewrite !elem_of_cons, elem_of_nil. lia. }
  split; [exact Hnin|].
  apply (voteAlbum_success_absent 7
           {| success := true; response_votes := [] |} demo_store Hnin).
Defined.


Lemma sortedAlbums_ranking_witness :
  (∀ s t, Z.sgn (ordinal_collation s t) = - Z.sgn (ordinal_collation t s))
  ∧ (∀ s t u, ordinal_collation s t ≤ 0 → ordinal_collation t u ≤ 0 →
              ordinal_collation s u ≤ 0)
  ∧ sortedAlbums ordinal_collation demo_store ≡ₚ albums demo_store
  ∧ StronglySorted (ranked_before ordinal_collation)
      (sortedAlbums ordinal_collation demo_store).
Proof.
  split; [exact ordinal_collation_antisym|].
  split; [exact ordinal_collation_trans|].
  destruct (sortedAlbums_ranking ordinal_collation ordinal_collation_antisym
              ordinal_collation_trans demo_store) as (Hperm & _ & Hsorted & _).
  split; [exact Hperm | exact Hsorted].
Defined.

(** ** The navigation guard *)

Section navigation_facts.
Variable resolve : string → option Router.RouteRecord.

(** The login route is open: whatever record the matcher finds for
    ["/login"] does not require authentication. *)
Hypothesis login_open :
  ∀ r, resolve "/login" = Some r → Router.requiresAuth r = false.

Lemma location_login_open :
  Router.to_requiresAuth (Router.location_of resolve "/login") = false.
Proof.
  unfold Router.location_of. simpl.
  destruct (resolve "/login") as [r|] eqn:Hr; [by apply login_open | done].
Qed.

Lemma beforeEach_cases p auth :
  (Router.beforeEach (Router.location_of resolve p) auth = Router.proceed
   ∧ (auth = false → Router.to_requiresAuth (Router.location_of resolve p) = false)
   ∧ (auth = true → p ≠ "/login" ∧ p ≠ "/register"))
  ∨ (Router.beforeEach (Router.location_of resolve p) auth = Router.redirect "/login"
     ∧ auth = false)
  ∨ (Router.beforeEach (Router.location_of resolve p) auth = Router.redirect "/"
     ∧ auth = true).
Proof.
  unfold Router.beforeEach.
  destruct (Router.to_requiresAuth (Router.location_of resolve p)) eqn:Hreq,
    auth; cbn [andb negb Router.to_path Router.location_of].
  - destruct (String.eqb p "/login") eqn:H1; cbn [orb andb]; [auto|].
    destruct (String.eqb p "/register") eqn:H2; cbn [orb andb]; [auto|].
    apply String.eqb_neq in H1, H2. left. done.
  - right. by left.
  - destruct (String.eqb p "/login") eqn:H1; cbn [orb andb]; [auto|].
    destruct (String.eqb p "/register") eqn:H2; cbn [orb andb]; [auto|].
    apply String.eqb_neq in H1, H2. left. done.
  - rewrite andb_false_r. left. done.
Qed.

(** X1. Every navigation settles after at most one redirect, whatever the
    matcher resolves, provided the login route is open: two rounds of the
    guard are enough and more rounds change nothing.  The path it settles on
    is the requested one, ["/login"] for a visitor or ["/"] for a signed-in
    user; a visitor never settles on a location that requires authentication
    and a signed-in user never on ["/login"] or ["/register"]. *)
Theorem navigation_settles (p : string) (auth : bool) :
  ∃ final,
    Router.navigate resolve 2 p auth = Some final
    ∧ (∀ fuel, (2 ≤ fuel)%nat → Router.navigate resolve fuel p auth = Some final)
    ∧ Router.beforeEach (Router.location_of resolve final) auth = Router.proceed
    ∧ (auth = false →
       Router.to_requiresAuth (Router.location_of resolve final) = false)
    ∧ (auth = true → final ≠ "/login" ∧ final ≠ "/register")
    ∧ (final = p ∨ (auth = false ∧ final = "/login") ∨ (auth = true ∧ final = "/")).
Proof.
  assert (Router.beforeEach (Router.location_of resolve "/login") false
          = Router.proceed) as Hlogin.
  { unfold Router.beforeEach. by rewrite location_login_open. }
  assert (Router.beforeEach (Router.location_of resolve "/") true
          = Router.proceed) as Hhome.
  { unfold Router.beforeEach. simpl. by rewrite andb_false_r. }
  destruct (beforeEach_cases p auth) as [(Hgo & Hv & Hu)|[[Hred ->]|[Hred ->]]].
  - exists p. split_and!; try done.
    + simpl. by rewrite Hgo.
    + intros [|fuel] Hfuel; [lia|]. simpl. by rewrite Hgo.
    + by left.
  - exists "/login". split_and!; try done.
    + simpl. by rewrite Hred, Hlogin.
    + intros [|[|fuel]] Hfuel; [lia..|]. simpl. by rewrite Hred, Hlogin.
    + intros _. apply location_login_open.
    + right. by left.
  - exists "/". split_and!; try done.
    + simpl. by rewrite Hred, Hhome.
    + intros [|[|fuel]] Hfuel; [lia..|]. simpl. by rewrite Hred, Hhome.
    + right. by right.
Qed.
End navigation_facts.

Lemma exact_match_login_open r :
  Router.exact_match "/login" = Some r → Router.requiresAuth r = false.
Proof. vm_compute. by intros [= <-]. Qed.

Lemma navigation_settles_witness :
  (∀ r, Router.exact_match "/login" = Some r → Router.requiresAuth r = false)
  ∧ Router.navigate Router.exact_match 2 "/albums" false = Some "/login".
Proof.
  split; [exact exact_match_login_open|].
  destruct (navigation_settles Router.exact_match exact_match_login_open
              "/albums" false) as (final & Hnav & _).
  rewrite Hnav. f_equal. revert Hnav. vm_compute. by intros [= <-].
Defined.

(** ** The auth store *)


Lemma auth_response_fail req s err e :
  thrown_by (Auth.not_ok_message req) s = Some err →
  Auth.response_settle req s e =
  (Auth.set_loading false
     (Auth.set_error (Some (message_of err "An error occurred")) e),
   Fulfilled).
Proof.
  destruct s as [x|[[] [x|body]]]; simpl; intros [= <-]; reflexivity.
Qed.




(** X3. A login or registration whose request fails (the fetch rejects, the
    response is not ok, or its body cannot be read) is swallowed: the promise
    is fulfilled, the message is recorded, loading is cleared, and the token,
    the user, the storage and the navigation are left as they are.  The same
    holds when the CSRF request rejects or the XSRF cookie cannot be decoded,
    and then the login request is never issued; a CSRF response that is not
    ok does not stop the call. *)
Theorem login_failure_swallowed (req : Auth.Request)
    (s : Settlement Auth.AuthResult) (err : Thrown) (e : Auth.Env) :
  thrown_by (Auth.not_ok_message req) s = Some err →
  let e' := (Auth.response_settle req s e).1 in
  (Auth.response_settle req s e).2 = Fulfilled
  ∧ Auth.error e' = Some (message_of err "An error occurred")
  ∧ Auth.loading e' = false
  ∧ Auth.token e' = Auth.token e ∧ Auth.user e' = Auth.user e
  ∧ Auth.isAuthenticated e' = Auth.isAuthenticated e
  ∧ Auth.localStorage e' = Auth.localStorage e
  ∧ Auth.pushed e' = Auth.pushed e
  ∧ (∀ (c : Settlement unit) (xsrf : Thrown + option string) err0,
       c = Rejects err0 ∨ (∃ response, c = Resolves response ∧ xsrf = inl err0) →
       (Auth.csrf_settle req c xsrf e).2 = Auth.Done Fulfilled
       ∧ Auth.error (Auth.csrf_settle req c xsrf e).1
         = Some (message_of err0 "An error occurred")
       ∧ Auth.loading (Auth.csrf_settle req c xsrf e).1 = false
       ∧ Auth.token (Auth.csrf_settle req c xsrf e).1 = Auth.token e
       ∧ Auth.pushed (Auth.csrf_settle req c xsrf e).1 = Auth.pushed e)
  ∧ (∀ response (header : option string),
       Auth.csrf_settle req (Resolves response) (inr header) e
       = (e, Auth.Waiting (Auth.AwaitResponse req))).
Proof.
  intros Hs. cbv zeta. rewrite (auth_response_fail _ _ _ _ Hs).
  split_and!; try done.
  intros c xsrf err0 [->|(response & -> & ->)]; done.
Qed.


Lemma login_failure_swallowed_witness :
  thrown_by (Auth.not_ok_message demo_login) demo_bad_credentials
  = Some (ErrorObject "Invalid credentials")
  ∧ Auth.error (Auth.response_settle demo_login demo_bad_credentials
                  (Auth.fresh ∅)).1
    = Some "Invalid credentials".
Proof.
  split; [reflexivity|].
  apply (login_failure_swallowed demo_login demo_bad_credentials
           (ErrorObject "Invalid credentials") (Auth.fresh ∅) eq_refl).
Defined.

(** X4. [logout] signs the user out: the token and the user are dropped, the
    ["token"] entry of the storage is removed and no other entry is touched,
    the store navigates to ["/login"], and a reload stays signed out.  It
    does not cancel a login in flight: a response that succeeds after the
    logout signs the user in again. *)
Theorem logout_signs_out (e : Auth.Env) (req : Auth.Request)
    (result : Auth.AuthResult) :
  let e' := Auth.logout e in
  Auth.isAuthenticated e' = false
  ∧ Auth.token e' = None ∧ Auth.user e' = None
  ∧ Auth.localStorage e' !! "token" = None
  ∧ (∀ key, key ≠ "token" →
       Auth.localStorage e' !! key = Auth.localStorage e !! key)
  ∧ Auth.pushed e' = Auth.pushed e ++ ["/login"]
  ∧ Auth.isAuthenticated (Auth.init (Auth.fresh (Auth.localStorage e'))) = false
  ∧ Auth.isAuthenticated (Auth.response_settle req (ok_with result) e').1
    = Auth.truthy (Auth.result_token result).
Proof.
  cbv zeta. unfold Auth.logout. simpl. split_and!; try done.
  - apply lookup_delete_eq.
  - intros key Hkey. by apply lookup_delete_ne.
  - unfold Auth.init. simpl. by rewrite lookup_delete_eq.
Qed.







(** ** The forms *)

Lemma truthy_true s : Auth.truthy s = true ↔ s ≠ "".
Proof.
  unfold Auth.truthy. rewrite negb_true_iff. apply String.eqb_neq.
Qed.

Lemma truthy_false s : Auth.truthy s = false ↔ s = "".
Proof.
  unfold Auth.truthy. rewrite negb_false_iff. apply String.eqb_eq.
Qed.


(** X7. The registration form submits whenever its four fields are filled
    in, whether or not the confirmation repeats the password: the request
    carries both as typed.  With any field empty it does nothing. *)
Theorem register_form_submits (name email password confirmation : string)
    (e : Auth.Env) :
  let submitted := RegisterView.handleSubmit name email password confirmation e in
  (name = "" ∨ email = "" ∨ password = "" ∨ confirmation = "" →
     submitted = (e, Auth.Done Fulfilled))
  ∧ (name ≠ "" → email ≠ "" → password ≠ "" → confirmation ≠ "" →
       submitted.2
       = Auth.Waiting (Auth.AwaitCsrf (Auth.PostRegister
           {| Auth.register_name := name; Auth.register_email := email;
              Auth.register_password := password;
              Auth.register_password_confirmation := confirmation |}))
       ∧ Auth.loading submitted.1 = true ∧ Auth.error submitted.1 = None
       ∧ Auth.token submitted.1 = Auth.token e).
Proof.
  cbv zeta. unfold RegisterView.handleSubmit. split.
  - intros [->|[->|[->| ->]]]; simpl; rewrite ?andb_false_r; done.
  - intros Hn%truthy_true He%truthy_true Hp%truthy_true Hc%truthy_true.
    rewrite Hn, He, Hp, Hc. done.
Qed.


Lemma register_form_submits_witness :
  (RegisterView.handleSubmit "Ada" "ada@example.org" "secret" "s3cret"
     (Auth.fresh ∅)).2
  = Auth.Waiting (Auth.AwaitCsrf (Auth.PostRegister
      {| Auth.register_name := "Ada"; Auth.register_email := "ada@example.org";
         Auth.register_password := "secret";
         Auth.register_password_confirmation := "s3cret" |})).
Proof.
  apply (register_form_submits "Ada" "ada@example.org" "secret" "s3cret"
           (Auth.fresh ∅)); discriminate.
Defined.

(** ** The album list view *)

Lemma loadAlbums_outcome st :
  let f := {| page := currentPage st; search := searchQuery st |} in
  ((AlbumListView.loadAlbums st).2 = Awaiting (ListAlbums (currentPage st) (searchQuery st))
   ∧ cache_get f (cache st) = None
   ∧ albums (AlbumListView.loadAlbums st).1 = albums st
   ∧ totalPages (AlbumListView.loadAlbums st).1 = totalPages st
   ∧ loading (AlbumListView.loadAlbums st).1 = true)
  ∨ (∃ cached,
       (AlbumListView.loadAlbums st).2 = Returned
       ∧ cache_get f (cache st) = Some cached
       ∧ albums (AlbumListView.loadAlbums st).1 = data cached
       ∧ totalPages (AlbumListView.loadAlbums st).1 = last_page cached
       ∧ loading (AlbumListView.loadAlbums st).1 = loading st).
Proof.
  cbv zeta. unfold AlbumListView.loadAlbums, fetchAlbums_call.
  destruct (cache_get _ (cache st)) as [cached|] eqn:Hget; simpl.
  - right. by exists cached.
  - by left.
Qed.

Lemma loadAlbums_page st :
  currentPage (AlbumListView.loadAlbums st).1 = currentPage st
  ∧ searchQuery (AlbumListView.loadAlbums st).1 = searchQuery st
  ∧ cache (AlbumListView.loadAlbums st).1 = cache st.
Proof.
  unfold AlbumListView.loadAlbums, fetchAlbums_call.
  by destruct (cache_get _ (cache st)).
Qed.

(** X8. While the page number is within 1 and the page count, every click
    the pagination offers moves it by exactly one, to a page within 1 and the
    page count shown at the click; the search text is kept, and the page is
    queried with it.  Either the request for that page and text is issued, and
    the page count is still the one shown; or the cache holds that page, the
    collection is taken from it, and the page count becomes the count of the
    cached page: the page number is within the new count when the cached count
    is the one shown, and is past it when the cached count is smaller than
    the page number. *)
Theorem pagination_click (st : Store) (r : Store * Suspension) :
  1 ≤ currentPage st ≤ totalPages st →
  AlbumListView.click_previous st = Some r ∨ AlbumListView.click_next st = Some r →
  1 ≤ currentPage r.1 ≤ totalPages st
  ∧ (currentPage r.1 = currentPage st - 1 ∨ currentPage r.1 = currentPage st + 1)
  ∧ searchQuery r.1 = searchQuery st
  ∧ ((r.2 = Awaiting (ListAlbums (currentPage r.1) (searchQuery st))
      ∧ cache_get {| page := currentPage r.1; search := searchQuery st |}
          (cache st) = None
      ∧ totalPages r.1 = totalPages st
      ∧ 1 ≤ currentPage r.1 ≤ totalPages r.1)
     ∨ (r.2 = Returned
        ∧ ∃ cached,
            cache_get {| page := currentPage r.1; search := searchQuery st |}
              (cache st) = Some cached
            ∧ albums r.1 = data cached
            ∧ totalPages r.1 = last_page cached
            ∧ (last_page cached = totalPages st →
               1 ≤ currentPage r.1 ≤ totalPages r.1)
            ∧ (last_page cached < currentPage r.1 →
               totalPages r.1 < currentPage r.1))).
Proof.
  intros Hrange Hclick.
  assert (∃ p, r = AlbumListView.loadAlbums (set_currentPage p st)
               ∧ 1 ≤ p ≤ totalPages st
               ∧ (p = currentPage st - 1 ∨ p = currentPage st + 1))
    as (p & -> & Hp & Hmove).
  { destruct Hclick as [Hclick|Hclick];
      unfold AlbumListView.click_previous, AlbumListView.click_next in Hclick;
      case_decide as Hen; try discriminate; injection Hclick as <-.
    - exists (currentPage st - 1). split_and!; [done|lia|lia|by left].
    - exists (currentPage st + 1). split_and!; [done|lia|lia|by right]. }
  destruct (loadAlbums_page (set_currentPage p st)) as (Hpage & Hsearch & _).
  rewrite Hpage, Hsearch. simpl. split_and!; [lia|lia|done|done|].
  destruct (loadAlbums_outcome (set_currentPage p st))
    as [(Hreq & Hget & _ & Htot & _)|(cached & Hret & Hget & Hal & Htot & _)].
  - left. rewrite Htot. simpl. split_and!; [done|done|done|lia|lia].
  - right. split; [done|]. exists cached. rewrite Htot.
    split_and!; [done|done|done| |lia]. intros ->. lia.
Qed.

(** X9. Past the last page the bound is gone: [Next] is disabled only on the
    page whose number equals the page count, so once the page number exceeds
    the page count (the collection shrank on the server) [Next] is offered
    again and moves one page further out. *)
Theorem pagination_next_past_end (st : Store) :
  totalPages st > 1 → currentPage st > totalPages st →
  ∃ r, AlbumListView.click_next st = Some r
       ∧ currentPage r.1 = currentPage st + 1
       ∧ currentPage r.1 > totalPages st.
Proof.
  intros Hshown Hpast. unfold AlbumListView.click_next.
  rewrite decide_True by lia. eexists. split; [done|].
  destruct (loadAlbums_page (set_currentPage (currentPage st + 1) st))
    as (-> & _). simpl. lia.
Qed.

(** X10. A search that has come to rest starts at the first page: the page
    number is 1 and the search text is the one typed, whatever they were,
    the cache is kept, and the query is for page 1 of that text: a request
    for it, or the cached page if that search was made before. *)
Theorem search_starts_at_first_page (value : string) (st : Store) :
  let r := AlbumListView.search_callback value st in
  currentPage r.1 = 1 ∧ searchQuery r.1 = value ∧ cache r.1 = cache st
  ∧ ((r.2 = Awaiting (ListAlbums 1 value)
      ∧ cache_get {| page := 1; search := value |} (cache st) = None
      ∧ albums r.1 = albums st)
     ∨ (∃ cached,
          r.2 = Returned
          ∧ cache_get {| page := 1; search := value |} (cache st) = Some cached
          ∧ albums r.1 = data cached ∧ totalPages r.1 = last_page cached)).
Proof.
  cbv zeta. unfold AlbumListView.search_callback.
  destruct (loadAlbums_page (updateSearch value st)) as (-> & -> & ->).
  split_and!; [done..|].
  destruct (loadAlbums_outcome (updateSearch value st))
    as [(Hreq & Hget & Hal & _)|(cached & Hret & Hget & Hal & Htot & _)].
  - by left.
  - right. by exists cached.
Qed.



Lemma demo_stale_store_reached :
  run demo_stale_events init_world
  = Some {| store := demo_stale_store; outstanding := [] |}.
Proof. vm_compute. reflexivity. Qed.

Lemma pagination_click_witness :
  1 ≤ currentPage demo_stale_store ≤ totalPages demo_stale_store
  ∧ AlbumListView.click_next demo_stale_store
    = Some (AlbumListView.loadAlbums (set_currentPage 3 demo_stale_store))
  ∧ currentPage (AlbumListView.loadAlbums
                   (set_currentPage 3 demo_stale_store)).1 = 3
  ∧ totalPages (AlbumListView.loadAlbums
                  (set_currentPage 3 demo_stale_store)).1 = 2
  ∧ 1 ≤ currentPage (AlbumListView.loadAlbums
                       (set_currentPage 3 demo_stale_store)).1
      ≤ totalPages demo_stale_store.
Proof.
  assert (1 ≤ currentPage demo_stale_store ≤ totalPages demo_stale_store)
    as Hrange by (simpl; lia).
  split; [exact Hrange|]. split; [reflexivity|].
  split; [reflexivity|]. split; [reflexivity|].
  apply (pagination_click demo_stale_store
           (AlbumListView.loadAlbums (set_currentPage 3 demo_stale_store))
           Hrange (or_intror eq_refl)).
Defined.

Lemma pagination_next_past_end_witness :
  totalPages (set_currentPage 4 demo_paged_store) > 1
  ∧ currentPage (set_currentPage 4 demo_paged_store)
    > totalPages (set_currentPage 4 demo_paged_store)
  ∧ is_Some (AlbumListView.click_next (set_currentPage 4 demo_paged_store)).
Proof.
  assert (totalPages (set_currentPage 4 demo_paged_store) > 1) as H1
    by (simpl; lia).
  assert (currentPage (set_currentPage 4 demo_paged_store)
          > totalPages (set_currentPage 4 demo_paged_store)) as H2
    by (simpl; lia).
  split; [exact H1|]. split; [exact H2|].
  destruct (pagination_next_past_end _ H1 H2) as (r & Hr & _).
  rewrite Hr. by eexists.
Defined.


Lemma hasVoted_spec user album voteType :
  AlbumListView.hasVoted user album voteType = true ↔
  ∃ u v, user = Some u ∧ v ∈ votes album
         ∧ user_id v = Auth.id u ∧ vote v = voteType.
Proof.
  unfold AlbumListView.hasVoted. rewrite existsb_exists. split.
  - intros (v & Hin%list_elem_of_In & Hv).
    destruct user as [u|]; [|done].
    apply andb_true_iff in Hv as [Hu%bool_decide_eq_true Ht%bool_decide_eq_true].
    by exists u, v.
  - intros (u & v & -> & Hin & Hu & Ht). exists v.
    split; [by apply list_elem_of_In|].
    apply andb_true_iff. by rewrite !bool_decide_eq_true.
Qed.

Lemma count_of_pos t v vs : v ∈ vs → vote v = t → 1 ≤ count_of t vs.
Proof.
  intros Hin Ht. unfold count_of.
  assert (v ∈ filter (λ v, vote v = t) vs) as Hf by (by apply list_elem_of_filter).
  destruct (filter (λ v, vote v = t) vs); [by apply elem_of_nil in Hf|].
  simpl. lia.
Qed.

(** X13. The highlight of a vote button agrees with the tally: a button that
    is highlighted for the signed-in user has its direction counted at least
    once by [calculateVoteCounts]; without a user nothing is highlighted; and
    when the album holds at most one vote per user, the two buttons are never
    both highlighted. *)
Theorem hasVoted_agrees_with_tally (user : option Auth.User) (album : Album) :
  (AlbumListView.hasVoted user album up = true →
     1 ≤ count_up (calculateVoteCounts (votes album)))
  ∧ (AlbumListView.hasVoted user album down = true →
     1 ≤ count_down (calculateVoteCounts (votes album)))
  ∧ (∀ voteType, AlbumListView.hasVoted None album voteType = false)
  ∧ (NoDup (user_id <$> votes album) →
     ¬ (AlbumListView.hasVoted user album up = true
        ∧ AlbumListView.hasVoted user album down = true)).
Proof.
  unfold calculateVoteCounts. rewrite fold_count_vote. simpl. split_and!.
  - intros (u & v & _ & Hin & _ & Hv)%hasVoted_spec. by eapply count_of_pos.
  - intros (u & v & _ & Hin & _ & Hv)%hasVoted_spec. by eapply count_of_pos.
  - intros voteType. apply not_true_is_false.
    by intros (u & v & [=] & _)%hasVoted_spec.
  - intros Hnodup [(u & v & Hu & Hin & Hid & Hv)%hasVoted_spec
                   (u' & v' & Hu' & Hin' & Hid' & Hv')%hasVoted_spec].
    rewrite Hu in Hu'. injection Hu' as <-.
    apply list_elem_of_lookup in Hin as [i Hi], Hin' as [j Hj].
    assert (i = j) as ->.
    { apply (NoDup_lookup _ i j (Auth.id u) Hnodup);
        rewrite list_lookup_fmap; [rewrite Hi | rewrite Hj]; simpl; congruence. }
    congruence.
Qed.

(** ** More on the album store *)

Lemma fetchAlbums_settle_loading f s st :
  loading (fetchAlbums_settle f s st).1 = false.
Proof. by destruct s as [e|[[] [e|body]]]. Qed.

Lemma voteAlbum_settle_loading albumId s st :
  loading (voteAlbum_settle albumId s st).1 = loading st.
Proof.
  destruct (thrown_by "Failed to vote" s) as [err|] eqn:Hs.
  - by rewrite (voteAlbum_settle_fail _ _ _ _ Hs).
  - apply thrown_by_None in Hs as [body ->]. rewrite voteAlbum_settle_ok.
    simpl. unfold apply_votes. case_decide; [|done]. by case_match.
Qed.

Lemma deleteAlbum_settle_loading {A} albumId (s : Settlement A) st :
  loading (deleteAlbum_settle albumId s st).1 = loading st.
Proof. by destruct s as [e|[[] j]]. Qed.

(** X14. In every world the album store reaches, the loading flag is set
    only while a list request is outstanding: the spinner never outlives the
    queries.  (The flag may be cleared while one is still outstanding: the
    first of two overlapping queries to settle clears it.) *)
Theorem loading_has_request (w : World) :
  reachable w →
  loading (store w) = true →
  ∃ p q, ListAlbums p q ∈ outstanding w.
Proof.
  induction 1 as [|w e w' Hw IH Hstep]; [done|].
  destruct w as [st l]. simpl in *.
  destruct e as [f|i v x|i x|q| |p|n s|n s|n s]; simpl in Hstep.
  - injection Hstep as <-. unfold after_call, fetchAlbums_call.
    destruct (cache_get f (cache st)); simpl.
    + done.
    + intros _. exists (page f), (search f).
      apply elem_of_app. right. by apply list_elem_of_singleton.
  - injection Hstep as <-. unfold after_call.
    destruct (decide (i ∈ voteLoading st)) as [Hi|Hi].
    { by rewrite (voteAlbum_call_member _ _ _ _ Hi). }
    destruct x as [err|token].
    { by rewrite (voteAlbum_call_throws _ _ _ _ Hi). }
    rewrite (voteAlbum_call_token _ _ _ _ Hi). simpl.
    intros (p & q & Hin)%IH. exists p, q. apply elem_of_app. by left.
  - injection Hstep as <-. unfold after_call.
    destruct x as [err|token]; [by rewrite deleteAlbum_call_throws|].
    rewrite deleteAlbum_call_token. simpl.
    intros (p & q & Hin)%IH. exists p, q. apply elem_of_app. by left.
  - by injection Hstep as <-.
  - by injection Hstep as <-.
  - by injection Hstep as <-.
  - destruct (l !! n) as [[p q|i v|i]|] eqn:Hn; try discriminate.
    injection Hstep as <-. unfold after_settle. simpl.
    by rewrite fetchAlbums_settle_loading.
  - destruct (l !! n) as [[p q|i v|i]|] eqn:Hn; try discriminate.
    injection Hstep as <-. unfold after_settle. simpl.
    rewrite voteAlbum_settle_loading.
    intros (p & q & Hin)%IH. exists p, q.
    apply list_elem_of_lookup in Hin as [j Hj].
    destruct (decide (j < n)%nat).
    + apply (list_elem_of_lookup_2 _ j). by rewrite list_lookup_delete_lt.
    + assert (j ≠ n) by (intros ->; congruence).
      apply (list_elem_of_lookup_2 _ (pred j)).
      rewrite list_lookup_delete_ge by lia.
      by replace (S (pred j)) with j by lia.
  - destruct (l !! n) as [[p q|i v|i]|] eqn:Hn; try discriminate.
    injection Hstep as <-. unfold after_settle. simpl.
    rewrite deleteAlbum_settle_loading.
    intros (p & q & Hin)%IH. exists p, q.
    apply list_elem_of_lookup in Hin as [j Hj].
    destruct (decide (j < n)%nat).
    + apply (list_elem_of_lookup_2 _ j). by rewrite list_lookup_delete_lt.
    + assert (j ≠ n) by (intros ->; congruence).
      apply (list_elem_of_lookup_2 _ (pred j)).
      rewrite list_lookup_delete_ge by lia.
      by replace (S (pred j)) with j by lia.
Qed.

Lemma loading_has_request_witness :
  reachable demo_loading_world
  ∧ loading (store demo_loading_world) = true
  ∧ ∃ p q, ListAlbums p q ∈ outstanding demo_loading_world.
Proof.
  assert (reachable demo_loading_world) as Hreach.
  { apply (reachable_step init_world (call_fetchAlbums demo_filters));
      [apply reachable_init | reflexivity]. }
  split; [exact Hreach|]. split; [reflexivity|].
  apply (loading_has_request demo_loading_world Hreach eq_refl).
Defined.

(** X15. Whatever becomes of a vote request, the collection keeps its albums
    in place: same length, and position by position the same id, title,
    artist, cover and dates; the votes of an album change only if its id is
    the one voted on. *)
Theorem voteAlbum_keeps_albums (albumId : Z) (s : Settlement VoteResponse)
    (st : Store) :
  Forall2 (λ a a',
             id a' = id a ∧ song_name a' = song_name a
             ∧ artist_name a' = artist_name a ∧ album_cover a' = album_cover a
             ∧ created_at a' = created_at a ∧ updated_at a' = updated_at a
             ∧ (id a ≠ albumId → votes a' = votes a))
    (albums st) (albums (voteAlbum_settle albumId s st).1)
  ∧ id <$> albums (voteAlbum_settle albumId s st).1 = id <$> albums st.
Proof.
  assert (Forall2 (λ a a',
             id a' = id a ∧ song_name a' = song_name a
             ∧ artist_name a' = artist_name a ∧ album_cover a' = album_cover a
             ∧ created_at a' = created_at a ∧ updated_at a' = updated_at a
             ∧ (id a ≠ albumId → votes a' = votes a))
            (albums st) (albums (voteAlbum_settle albumId s st).1)) as Hall.
  { destruct (thrown_by "Failed to vote" s) as [err|] eqn:Hs.
    - rewrite (voteAlbum_settle_fail _ _ _ _ Hs). simpl.
      apply Forall2_same_length_lookup_2; [done|].
      intros i a a' Ha Ha'. rewrite Ha in Ha'. by injection Ha' as <-.
    - apply thrown_by_None in Hs as [body ->]. rewrite voteAlbum_settle_ok. simpl.
      destruct (list_find (λ a, id a = albumId) (albums st)) as [[i old]|] eqn:Hfind.
      + rewrite (apply_votes_found _ _ _ _ _ Hfind). simpl.
        apply list_find_Some in Hfind as (Hi & Hid & _).
        apply Forall2_same_length_lookup_2; [by rewrite length_insert|].
        intros j a a' Ha Ha'. destruct (decide (i = j)) as [->|Hne].
        * rewrite list_lookup_insert_eq in Ha' by (by eapply lookup_lt_Some).
          injection Ha' as <-. rewrite Hi in Ha. injection Ha as <-.
          simpl. split_and!; done.
        * rewrite list_lookup_insert_ne in Ha' by done.
          rewrite Ha in Ha'. by injection Ha' as <-.
      + unfold apply_votes. rewrite (findIndex_None _ _ Hfind).
        rewrite decide_False by lia.
        apply Forall2_same_length_lookup_2; [done|].
        intros i a a' Ha Ha'. rewrite Ha in Ha'. by injection Ha' as <-. }
  split; [exact Hall|].
  clear -Hall. induction Hall as [|a a' l l' (Hid & _) _ IH]; [done|].
  by rewrite !fmap_cons, Hid, IH.
Qed.

(** X16. Two queries with different filters that overlap: both pages end
    in the cache, each under its own filters and whatever the order of the
    two responses, while the collection shown is the page of the response
    that came last, not of the call that was made last. *)
Theorem overlapping_queries (f g : AlbumFilters)
    (pf pg : PaginatedAlbumResponse) (st : Store) :
  f ≠ g →
  let f_then_g := (fetchAlbums_settle g (ok_with pg)
                     (fetchAlbums_settle f (ok_with pf) st).1).1 in
  let g_then_f := (fetchAlbums_settle f (ok_with pf)
                     (fetchAlbums_settle g (ok_with pg) st).1).1 in
  albums f_then_g = data pg ∧ totalPages f_then_g = last_page pg
  ∧ albums g_then_f = data pf ∧ totalPages g_then_f = last_page pf
  ∧ cache f_then_g = cache g_then_f
  ∧ cache_get f (cache f_then_g) = Some pf
  ∧ cache_get g (cache f_then_g) = Some pg.
Proof.
  intros Hfg. cbv zeta. rewrite !fetchAlbums_settle_ok. simpl.
  assert (getCacheKey f ≠ getCacheKey g) as Hkeys
    by (by intros ?%getCacheKey_inj).
  unfold cache_get, cache_put. split_and!; try done.
  - by apply insert_insert_ne.
  - rewrite lookup_insert_ne by done. apply lookup_insert_eq.
  - apply lookup_insert_eq.
Qed.

(** X17. Deleting is not gated and is idempotent on the collection: in
    any world a [deleteAlbum] whose request can be built issues it and leaves
    the store alone, also after a deletion of the same id and while one is
    outstanding; when a second deletion succeeds too the collection is what
    the first left; the deletion of an id that is not in the collection
    changes no album, yet empties the cache.  A successful deletion leaves the
    error, the loading flag, the page count and the vote gate as they were. *)
Theorem deleteAlbum_idempotent (albumId : Z) (st : Store) :
  let once := (deleteAlbum_settle albumId (ok_with tt) st).1 in
  let twice := (deleteAlbum_settle albumId (ok_with tt) once).1 in
  (∀ w token,
     step (call_deleteAlbum albumId (inr token)) w
     = Some {| store := store w;
               outstanding := outstanding w ++ [DeleteAlbum albumId] |})
  ∧ albums twice = albums once
  ∧ (albumId ∉ id <$> albums st → albums once = albums st ∧ cache once = ∅)
  ∧ error once = error st ∧ loading once = loading st
  ∧ totalPages once = totalPages st ∧ voteLoading once = voteLoading st.
Proof.
  cbv zeta. rewrite !(deleteAlbum_settle_ok albumId (ok_with tt)) by done.
  simpl. split_and!; try done.
  - apply list_filter_filter_l. tauto.
  - intros Hnin. split; [|done].
    induction (albums st) as [|a l IH]; [done|].
    rewrite fmap_cons, not_elem_of_cons in Hnin. destruct Hnin as [Hne Hnin].
    rewrite filter_cons_True by done. by rewrite IH.
Qed.

Lemma overlapping_queries_witness :
  demo_filters ≠ {| page := 2; search := "" |}
  ∧ albums (fetchAlbums_settle {| page := 2; search := "" |} (ok_with (demo_page []))
              (fetchAlbums_settle demo_filters (ok_with (demo_page demo_albums))
                 init_store).1).1 = [].
Proof.
  assert (demo_filters ≠ {| page := 2; search := "" |}) as Hne by discriminate.
  split; [exact Hne|].
  apply (overlapping_queries demo_filters {| page := 2; search := "" |}
           (demo_page demo_albums) (demo_page []) init_store Hne).
Defined.

Lemma count_of_Permutation t vs vs' : vs ≡ₚ vs' → count_of t vs = count_of t vs'.
Proof. intros Hp. unfold count_of. by rewrite Hp. Qed.

Lemma count_of_app t vs ws : count_of t (vs ++ ws) = count_of t vs + count_of t ws.
Proof. unfold count_of. rewrite filter_app, length_app. lia. Qed.

(** X18. The tally does not depend on the order of the votes, and the tally
    of two lists put together is the sum of their tallies; so the net score
    of an album, and with it its rank, is the same however the authority
    orders the votes it returns. *)
Theorem tally_order_independent (vs vs' ws : list Vote) (a a' : Album) :
  vs ≡ₚ vs' →
  calculateVoteCounts vs = calculateVoteCounts vs'
  ∧ count_up (calculateVoteCounts (vs ++ ws))
    = count_up (calculateVoteCounts vs) + count_up (calculateVoteCounts ws)
  ∧ count_down (calculateVoteCounts (vs ++ ws))
    = count_down (calculateVoteCounts vs) + count_down (calculateVoteCounts ws)
  ∧ (votes a ≡ₚ votes a' → View.getTotalVotes a = View.getTotalVotes a').
Proof.
  intros Hp. unfold View.getTotalVotes, calculateVoteCounts.
  rewrite !fold_count_vote. simpl. split_and!.
  - by rewrite (count_of_Permutation up vs vs' Hp),
      (count_of_Permutation down vs vs' Hp).
  - rewrite count_of_app. lia.
  - rewrite count_of_app. lia.
  - intros Ha.
    by rewrite (count_of_Permutation up _ _ Ha), (count_of_Permutation down _ _ Ha).
Qed.

(** X19. [clearCache] forgets every page and nothing else: the collection,
    the page count and the flags stay, and the next [fetchAlbums] goes to the
    network whatever its filters, even for the page that was fetched just
    before and is still shown. *)
Theorem clearCache_forgets (f g : AlbumFilters) (body : PaginatedAlbumResponse)
    (st : Store) :
  let fetched := (fetchAlbums_settle f (ok_with body) st).1 in
  let cleared := clearCache fetched in
  albums cleared = data body ∧ totalPages cleared = last_page body
  ∧ loading cleared = loading fetched ∧ error cleared = error fetched
  ∧ voteLoading cleared = voteLoading fetched
  ∧ (fetchAlbums_call f fetched).2 = Returned
  ∧ (fetchAlbums_call f cleared).2 = Awaiting (ListAlbums (page f) (search f))
  ∧ (fetchAlbums_call g cleared).2 = Awaiting (ListAlbums (page g) (search g)).
Proof.
  cbv zeta. rewrite fetchAlbums_settle_ok. unfold clearCache.
  cbn [fst albums totalPages loading error voteLoading set_cache set_loading
       set_totalPages set_albums].
  split_and!; [done..| | |].
  - rewrite (fetchAlbums_call_hit f body); [done|]. apply lookup_insert_eq.
  - rewrite fetchAlbums_call_miss; [done|]. apply lookup_empty.
  - rewrite fetchAlbums_call_miss; [done|]. apply lookup_empty.
Qed.

Lemma tally_order_independent_witness :
  [demo_vote 1 10 up; demo_vote 2 11 down] ≡ₚ [demo_vote 2 11 down; demo_vote 1 10 up]
  ∧ calculateVoteCounts [demo_vote 1 10 up; demo_vote 2 11 down]
    = calculateVoteCounts [demo_vote 2 11 down; demo_vote 1 10 up].
Proof.
  assert ([demo_vote 1 10 up; demo_vote 2 11 down]
          ≡ₚ [demo_vote 2 11 down; demo_vote 1 10 up]) as Hp
    by apply Permutation_swap.
  split; [exact Hp|].
  apply (tally_order_independent _ _ [] (demo_album 1 "a" []) (demo_album 1 "a" []) Hp).
Defined.

(** ** The cookie readers *)

Example split_demo :
  Cookie.split "; " "a=1; XSRF-TOKEN=abc; b=2" = ["a=1"; "XSRF-TOKEN=abc"; "b=2"]
  ∧ Cookie.split "aa" "aaa" = [""; "a"]
  ∧ Cookie.split ";" "" = [""].
Proof. vm_compute. done. Qed.

Example getCookie_demo :
  Cookie.getCookie inr "a=1; XSRF-TOKEN=abc%3D; b=2" "XSRF-TOKEN" = inr "abc%3D"
  ∧ Cookie.getCookie inr "XSRF-TOKEN=x; a=1; XSRF-TOKEN=y" "XSRF-TOKEN" = inr ""
  ∧ Cookie.getCsrfToken inr "XSRF-TOKEN=x; a=1; XSRF-TOKEN=y" = inr (Some "x")
  ∧ Cookie.getCsrfToken inr "a=1" = inr None.
Proof. vm_compute. done. Qed.

Lemma startsWith_app p t : Cookie.startsWith p (p +:+ t) = true.
Proof.
  induction p as [|c p IH]; [done|].
  rewrite string_app_cons. simpl. by rewrite Ascii.eqb_refl, IH.
Qed.

Lemma startsWith_head_ne c0 sep' c s :
  c ≠ c0 → Cookie.startsWith (String c0 sep') (String c s) = false.
Proof.
  intros Hne. simpl. destruct (Ascii.eqb c0 c) eqn:Heq; [|done].
  apply Ascii.eqb_eq in Heq. congruence.
Qed.

Lemma split_go_unfold sep cur c s :
  Cookie.split_go sep 0 cur (String c s) =
  if Cookie.startsWith sep (String c s)
  then cur :: Cookie.split_go sep (String.length sep - 1) "" s
  else Cookie.split_go sep 0 (cur +:+ String c "") s.
Proof. reflexivity. Qed.

Lemma split_go_skip sep x cur s :
  Cookie.split_go sep (String.length x) cur (x +:+ s) = Cookie.split_go sep 0 cur s.
Proof.
  induction x as [|c x IH]; [done|]. rewrite string_app_cons. exact IH.
Qed.

(** Where the separator starts, the piece is closed. *)
Lemma split_go_match c0 sep' cur t :
  Cookie.split_go (String c0 sep') 0 cur (String c0 sep' +:+ t)
  = cur :: Cookie.split_go (String c0 sep') 0 "" t.
Proof.
  pose proof (startsWith_app (String c0 sep') t) as Hstart.
  rewrite string_app_cons in *. rewrite split_go_unfold, Hstart.
  f_equal.
  replace (String.length (String c0 sep') - 1)%nat with (String.length sep')
    by (simpl; lia).
  apply split_go_skip.
Qed.

(** Text without the first character of the separator is read through. *)
Lemma split_go_lacks c0 sep' w cur s :
  Cookie.lacks c0 w →
  Cookie.split_go (String c0 sep') 0 cur (w +:+ s)
  = Cookie.split_go (String c0 sep') 0 (cur +:+ w) s.
Proof.
  revert cur. induction w as [|c w IH]; intros cur Hw.
  - by rewrite string_app_nil_l, string_app_nil_r.
  - destruct Hw as [Hc Hw]. rewrite string_app_cons, split_go_unfold.
    rewrite startsWith_head_ne by done. rewrite IH by done.
    by rewrite string_app_assoc, string_app_cons, string_app_nil_l.
Qed.

Lemma lacks_app ch s t : Cookie.lacks ch s → Cookie.lacks ch t → Cookie.lacks ch (s +:+ t).
Proof.
  intros Hs Ht. induction s as [|c s IH]; [done|].
  rewrite string_app_cons. destruct Hs. split; [done | by apply IH].
Qed.

(** A name in front of its equals sign: only the same name starts there. *)
Lemma startsWith_name name n r :
  Cookie.lacks "=" name → Cookie.lacks "=" n →
  Cookie.startsWith (name +:+ "=") (n +:+ String "=" r) = true ↔ name = n.
Proof.
  intros Hname Hn. split.
  - revert n Hn. induction name as [|a name IH]; intros [|b n] Hn;
      rewrite ?string_app_nil_l, ?string_app_cons; cbn [Cookie.startsWith].
    + done.
    + destruct Hn as [Hb _]. destruct (Ascii.eqb_spec "=" b); [congruence|done].
    + destruct Hname as [Ha _]. destruct (Ascii.eqb_spec a "="); [congruence|done].
    + destruct Hname as [_ Hname], Hn as [_ Hn].
      destruct (Ascii.eqb_spec a b) as [->|]; [|done].
      cbn [andb]. intros Hrest. f_equal. by apply IH.
  - intros ->. change (String "=" r) with ("=" +:+ r).
    rewrite <-string_app_assoc. apply startsWith_app.
Qed.

Lemma render_cons n v rest :
  Cookie.render ((n, v) :: rest) = n +:+ "=" +:+ v +:+ Cookie.segments rest.
Proof.
  revert n v. induction rest as [|[n' v'] rest IH]; intros n v.
  - simpl. by rewrite string_app_nil_r.
  - change (Cookie.render ((n, v) :: (n', v') :: rest))
      with (n +:+ "=" +:+ v +:+ "; " +:+ Cookie.render ((n', v') :: rest)).
    rewrite IH. reflexivity.
Qed.

(** [split] at the cookies called [name], over the segments of a jar. *)
Lemma split_go_segments name jar cur w :
  Cookie.well_formed jar → Cookie.lacks ";" w → Cookie.lacks "=" name →
  Cookie.split_go ("; " +:+ name +:+ "=") 0 cur (w +:+ Cookie.segments jar)
  = Cookie.parts_from name (cur +:+ w) jar.
Proof.
  intros Hwf Hw Hname. revert cur w Hw.
  induction Hwf as [|[n v] rest (Hn1 & Hn2 & Hv) Hrest IH]; intros cur w Hw;
    simpl in *.
  - change ("; " +:+ name +:+ "=") with (String ";" (String " " (name +:+ "="))).
    by rewrite split_go_lacks.
  - change ("; " +:+ name +:+ "=") with (String ";" (String " " (name +:+ "="))) in *.
    rewrite split_go_lacks by done.
    case_decide as Hnn.
    + subst n.
      assert ("; " +:+ name +:+ "=" +:+ v +:+ Cookie.segments rest
              = String ";" (String " " (name +:+ "="))
                +:+ (v +:+ Cookie.segments rest)) as ->.
      { change (String ";" (String " " (name +:+ "=")))
          with ("; " +:+ (name +:+ "=")).
        by rewrite !string_app_assoc. }
      rewrite split_go_match. f_equal.
      rewrite (IH "" v Hv). by rewrite string_app_nil_l.
    + change ("; " +:+ n +:+ "=" +:+ v +:+ Cookie.segments rest)
        with (String ";" (String " " (n +:+ String "=" (v +:+ Cookie.segments rest)))).
      rewrite split_go_unfold.
      assert (Cookie.startsWith (String ";" (String " " (name +:+ "=")))
                (String ";" (String " " (n +:+ String "=" (v +:+ Cookie.segments rest))))
              = false) as ->.
      { cbn [Cookie.startsWith]. rewrite !Ascii.eqb_refl. cbn [andb].
        apply not_true_is_false. intros Hs.
        apply startsWith_name in Hs; [congruence|done|done]. }
      assert (String " " (n +:+ String "=" (v +:+ Cookie.segments rest))
              = (" " +:+ n +:+ "=" +:+ v) +:+ Cookie.segments rest) as ->.
      { by rewrite !string_app_assoc. }
      rewrite IH.
      * f_equal. by rewrite !string_app_assoc.
      * change (Cookie.lacks ";" (String " " (n +:+ "=" +:+ v))).
        split; [done|]. apply lacks_app; [done|].
        change (Cookie.lacks ";" (String "=" v)). by split.
Qed.

Lemma parts_from_length name cur jar :
  length (Cookie.parts_from name cur jar)
  = S (length (filter (λ c, c.1 = name) jar)).
Proof.
  revert cur. induction jar as [|[n v] rest IH]; intros cur; [done|].
  simpl. rewrite filter_cons. simpl. case_decide; simpl; by rewrite IH.
Qed.

Lemma parts_from_one name cur jar c :
  filter (λ c, c.1 = name) jar = [c] →
  ∃ front back,
    Cookie.parts_from name cur jar = [front; c.2 +:+ Cookie.segments back]
    ∧ c ∈ jar.
Proof.
  revert cur. induction jar as [|[n v] rest IH]; intros cur; [done|].
  rewrite filter_cons. simpl. case_decide as Hn.
  - intros [= <- Hrest]. exists cur, rest. split; [|by left].
    f_equal. clear IH. revert v Hn.
    induction rest as [|[n' v'] rest IH]; intros v Hn.
    + simpl. by rewrite string_app_nil_r.
    + rewrite filter_cons in Hrest. simpl in *. case_decide; [done|].
      rewrite (IH Hrest) by done. by rewrite !string_app_assoc.
  - intros Hrest.
    destruct (IH (cur +:+ "; " +:+ n +:+ "=" +:+ v) Hrest)
      as (front & back & -> & Hin).
    exists front, back. split; [done | by right].
Qed.

Lemma head_split_semicolon v back :
  Cookie.lacks ";" v →
  head (Cookie.split ";" (v +:+ Cookie.segments back)) = Some v.
Proof.
  intros Hv. unfold Cookie.split.
  change ";" with (String ";"%char "") at 1.
  rewrite split_go_lacks by done. rewrite string_app_nil_l.
  destruct back as [|[n w] back]; [done|].
  change (Cookie.segments ((n, w) :: back))
    with (String ";" "" +:+ (" " +:+ n +:+ "=" +:+ w +:+ Cookie.segments back)).
  by rewrite split_go_match.
Qed.

Lemma split_empty_jar name :
  Cookie.split ("; " +:+ name +:+ "=") ("; " +:+ "") = ["; "].
Proof.
  unfold Cookie.split.
  change ("; " +:+ name +:+ "=") with (String ";" (String " " (name +:+ "="))).
  change ("; " +:+ "") with (String ";" (String " " "")).
  rewrite split_go_unfold.
  assert (Cookie.startsWith (String ";" (String " " (name +:+ "=")))
            (String ";" (String " " "")) = false) as ->.
  { cbn [Cookie.startsWith]. rewrite !Ascii.eqb_refl. by destruct name. }
  rewrite split_go_unfold, startsWith_head_ne by done. reflexivity.
Qed.

Lemma split_value name c rest :
  Cookie.well_formed (c :: rest) → Cookie.lacks "=" name →
  Cookie.split ("; " +:+ name +:+ "=") ("; " +:+ Cookie.render (c :: rest))
  = Cookie.parts_from name "" (c :: rest).
Proof.
  intros Hwf Hname. destruct c as [n v].
  assert ("; " +:+ Cookie.render ((n, v) :: rest)
          = "" +:+ Cookie.segments ((n, v) :: rest)) as ->.
  { rewrite render_cons. by rewrite string_app_nil_l. }
  unfold Cookie.split. by rewrite split_go_segments.
Qed.

(** [getCookie] on the rendering of a jar. *)
Lemma getCookie_jar decode jar name :
  Cookie.well_formed jar → Cookie.lacks "=" name →
  Cookie.getCookie decode (Cookie.render jar) name
  = match Cookie.the_cookie name jar with
    | Some v => if Auth.truthy v then decode v else inr ""
    | None => inr ""
    end.
Proof.
  intros Hwf Hname. unfold Cookie.getCookie, Cookie.the_cookie. cbv zeta.
  destruct jar as [|[n v] rest].
  - simpl Cookie.render. rewrite split_empty_jar. by rewrite decide_False.
  - rewrite split_value by done. rewrite parts_from_length.
    destruct (filter (λ c, c.1 = name) ((n, v) :: rest)) as [|c [|c' more]] eqn:Hf.
    + by rewrite decide_False.
    + destruct (parts_from_one name "" _ c Hf) as (front & back & -> & Hin).
      rewrite decide_True by done.
      change (last [front; c.2 +:+ Cookie.segments back])
        with (Some (c.2 +:+ Cookie.segments back)).
      change (Some (c.2 +:+ Cookie.segments back)
                ≫= (λ part, head (Cookie.split ";" part)))
        with (head (Cookie.split ";" (c.2 +:+ Cookie.segments back))).
      assert (Cookie.lacks ";" c.2) as Hc.
      { unfold Cookie.well_formed in Hwf. rewrite Forall_forall in Hwf.
        by destruct (Hwf c Hin) as (_ & _ & ?). }
      by rewrite (head_split_semicolon _ _ Hc).
    + rewrite decide_False by (simpl; lia). done.
Qed.

(** [split] at every separator, over the segments of a jar. *)
Lemma split_go_rows jar cur w :
  Cookie.well_formed jar → Cookie.lacks ";" w →
  Cookie.split_go "; " 0 cur (w +:+ Cookie.segments jar)
  = Cookie.rows_from (cur +:+ w) jar.
Proof.
  intros Hwf. revert cur w.
  induction Hwf as [|[n v] rest (Hn1 & Hn2 & Hv) Hrest IH]; intros cur w Hw;
    simpl in *.
  - change "; " with (String ";" (String " " "")).
    by rewrite split_go_lacks.
  - change "; " with (String ";" (String " " "")) at 1.
    rewrite split_go_lacks by done.
    assert ("; " +:+ n +:+ "=" +:+ v +:+ Cookie.segments rest
            = String ";" (String " " "")
              +:+ ((n +:+ "=" +:+ v) +:+ Cookie.segments rest)) as ->.
    { change (String ";" (String " " "")) with "; ".
      by rewrite !string_app_assoc. }
    rewrite split_go_match. f_equal.
    change (String ";" (String " " "")) with "; ".
    rewrite IH; [by rewrite string_app_nil_l|].
    apply lacks_app; [done|]. change (Cookie.lacks ";" (String "=" v)). by split.
Qed.

Lemma rows_from_map cur jar :
  Cookie.rows_from cur jar = cur :: map Cookie.row jar.
Proof.
  revert cur. induction jar as [|[n v] rest IH]; intros cur; [done|].
  simpl. by rewrite IH.
Qed.

Lemma split_rows c rest :
  Cookie.well_formed (c :: rest) →
  Cookie.split "; " (Cookie.render (c :: rest)) = map Cookie.row (c :: rest).
Proof.
  intros Hwf. destruct c as [n v]. rewrite render_cons.
  apply Forall_cons in Hwf as [(Hn1 & Hn2 & Hv) Hrest]. simpl in *.
  unfold Cookie.split.
  assert (n +:+ "=" +:+ v +:+ Cookie.segments rest
          = (n +:+ "=" +:+ v) +:+ Cookie.segments rest) as ->
    by (by rewrite !string_app_assoc).
  rewrite split_go_rows; [|done|].
  - by rewrite rows_from_map, string_app_nil_l.
  - apply lacks_app; [done|]. change (Cookie.lacks ";" (String "=" v)). by split.
Qed.

Lemma find_row name jar :
  Cookie.well_formed jar → Cookie.lacks "=" name →
  List.find (Cookie.startsWith (name +:+ "=")) (map Cookie.row jar)
  = Cookie.row <$> head (filter (λ c, c.1 = name) jar).
Proof.
  intros Hwf Hname.
  induction Hwf as [|[n v] rest (Hn1 & Hn2 & Hv) Hrest IH]; [done|].
  simpl in *. rewrite filter_cons. simpl.
  destruct (Cookie.startsWith (name +:+ "=") (Cookie.row (n, v))) eqn:Hstart.
  - apply startsWith_name in Hstart; [|done..]. by rewrite decide_True.
  - rewrite decide_False; [done|]. intros <-.
    unfold Cookie.row in Hstart. simpl in Hstart.
    rewrite <-string_app_assoc, startsWith_app in Hstart. done.
Qed.

Lemma row_truthy c : Auth.truthy (Cookie.row c) = true.
Proof. destruct c as [[|a n] v]; reflexivity. Qed.

Lemma split_row n v :
  Cookie.lacks "=" n → Cookie.lacks "=" v →
  Cookie.split "=" (Cookie.row (n, v)) = [n; v].
Proof.
  intros Hn Hv. unfold Cookie.split, Cookie.row. simpl.
  change "=" with (String "="%char "") at 1.
  rewrite split_go_lacks by done. rewrite string_app_nil_l.
  change ("=" +:+ v) with (String "=" "" +:+ v).
  rewrite split_go_match. f_equal.
  rewrite <-(string_app_nil_r v) at 1. rewrite split_go_lacks by done.
  by rewrite string_app_nil_l.
Qed.

(** [getCsrfToken] on the rendering of a jar. *)
Lemma getCsrfToken_jar decode jar :
  Cookie.well_formed jar → Forall (λ c, Cookie.lacks "=" c.2) jar →
  Cookie.getCsrfToken decode (Cookie.render jar)
  = match Cookie.first_cookie "XSRF-TOKEN" jar with
    | Some v => match decode v with
                | inl err => inl err
                | inr token => inr (Some token)
                end
    | None => inr None
    end.
Proof.
  intros Hwf Hvalues. unfold Cookie.getCsrfToken, Cookie.first_cookie. cbv zeta.
  destruct jar as [|c rest]; [done|].
  rewrite split_rows by done.
  change "XSRF-TOKEN=" with ("XSRF-TOKEN" +:+ "=").
  rewrite find_row; [|done|by vm_compute].
  destruct (head (filter (λ c, c.1 = "XSRF-TOKEN") (c :: rest)))
    as [[n v]|] eqn:Hhead; [|done].
  simpl. rewrite row_truthy.
  assert ((n, v) ∈ c :: rest) as Hin.
  { apply head_Some_elem_of in Hhead. by apply list_elem_of_filter in Hhead as [_ ?]. }
  unfold Cookie.well_formed in Hwf. rewrite Forall_forall in Hwf, Hvalues.
  destruct (Hwf _ Hin) as (_ & Hn & _). specialize (Hvalues _ Hin).
  by rewrite split_row.
Qed.

(** X20. [getCookie] on a cookie string as the browser renders it (names
    and values without semicolon, names without equals sign): when exactly
    one cookie has the name, the result is its value decoded, or the empty
    string when the value is empty; when no cookie has the name the result is
    the empty string; and when several cookies have the name the result is the
    empty string as well: none of them is read. *)
Theorem getCookie_reads_jar (decode : string → Thrown + string)
    (jar : list (string * string)) (name : string) :
  Cookie.well_formed jar → Cookie.lacks "=" name →
  let found := filter (λ c, c.1 = name) jar in
  (∀ c, found = [c] →
     Cookie.getCookie decode (Cookie.render jar) name
     = if Auth.truthy c.2 then decode c.2 else inr "")
  ∧ (found = [] → Cookie.getCookie decode (Cookie.render jar) name = inr "")
  ∧ ((2 ≤ length found)%nat →
     Cookie.getCookie decode (Cookie.render jar) name = inr "").
Proof.
  intros Hwf Hname. cbv zeta.
  rewrite (getCookie_jar decode jar name Hwf Hname). unfold Cookie.the_cookie.
  split_and!.
  - by intros c ->.
  - by intros ->.
  - destruct (filter (λ c, c.1 = name) jar) as [|c [|c' more]]; simpl; [lia|lia|done].
Qed.

(** X21. [getCsrfToken] on a cookie string as the browser renders it, the
    values without equals sign: the result is the decoded value of the first
    cookie called [XSRF-TOKEN], the empty string included, and [null] when
    there is none; what [decodeURIComponent] throws is thrown on. *)
Theorem getCsrfToken_reads_jar (decode : string → Thrown + string)
    (jar : list (string * string)) :
  Cookie.well_formed jar → Forall (λ c, Cookie.lacks "=" c.2) jar →
  (∀ v, Cookie.first_cookie "XSRF-TOKEN" jar = Some v →
     Cookie.getCsrfToken decode (Cookie.render jar)
     = match decode v with
       | inl err => inl err
       | inr token => inr (Some token)
       end)
  ∧ (Cookie.first_cookie "XSRF-TOKEN" jar = None →
     Cookie.getCsrfToken decode (Cookie.render jar) = inr None)
  ∧ (Cookie.getCsrfToken decode (Cookie.render jar) = inr None →
     Cookie.first_cookie "XSRF-TOKEN" jar = None).
Proof.
  intros Hwf Hvalues.
  rewrite (getCsrfToken_jar decode jar Hwf Hvalues).
  split_and!.
  - by intros v ->.
  - by intros ->.
  - destruct (Cookie.first_cookie "XSRF-TOKEN" jar) as [v|]; [|done].
    by destruct (decode v).
Qed.


Lemma demo_jar_well_formed : Cookie.well_formed demo_jar.
Proof. repeat constructor; by vm_compute. Qed.

Lemma demo_jar_values : Forall (λ c, Cookie.lacks "=" c.2) demo_jar.
Proof. repeat constructor; by vm_compute. Qed.

Lemma getCookie_reads_jar_witness :
  Cookie.well_formed demo_jar ∧ Cookie.lacks "=" "XSRF-TOKEN"
  ∧ Cookie.getCookie inr (Cookie.render demo_jar) "XSRF-TOKEN" = inr "abc%3D".
Proof.
  assert (Cookie.lacks "=" "XSRF-TOKEN") as Hname by (by vm_compute).
  split; [exact demo_jar_well_formed|]. split; [exact Hname|].
  destruct (getCookie_reads_jar inr demo_jar "XSRF-TOKEN"
              demo_jar_well_formed Hname) as (Hone & _).
  apply (Hone ("XSRF-TOKEN", "abc%3D")). reflexivity.
Defined.

Lemma getCsrfToken_reads_jar_witness :
  Cookie.well_formed demo_jar ∧ Forall (λ c, Cookie.lacks "=" c.2) demo_jar
  ∧ Cookie.getCsrfToken inr (Cookie.render demo_jar) = inr (Some "abc%3D").
Proof.
  split; [exact demo_jar_well_formed|]. split; [exact demo_jar_values|].
  destruct (getCsrfToken_reads_jar inr demo_jar
              demo_jar_well_formed demo_jar_values) as (Hfirst & _).
  apply (Hfirst "abc%3D"). reflexivity.
Defined.

